(** * Assign mutator of gatekeeper: validation, construction, diffing, copying

    A shallow embedding of [pkg/mutation/assign_mutator.go].  Go values are
    modelled as follows.

    - a slice [[]T] is [option (list T)]: [None] is the nil slice, [Some l]
      a non-nil slice with elements [l] (go-cmp tells the two apart);
    - a pointer that may be nil ([*string]) is an [option];
    - an [interface{}] holding a decoded JSON document is a [Value];
    - an [error] result is [option error], [None] being Go's [nil];
    - a function returning [(T, error)] returns a [result T];
    - the package [log] is an output list of entries.

    Code of other packages that the file calls (the path parser, the JSON
    decoder, [MakeID], the applicability predicate [Matches]) is taken
    through the class [Externals]. *)

From Stdlib Require Import Floats.SpecFloat Strings.Byte Strings.Ascii Strings.String.
From stdpp Require Import gmap strings list.

Set Warnings "-register-all".

Open Scope string_scope.
Open Scope list_scope.

(** ** Go values *)

#[global] Instance byte_eq_dec : EqDecision byte := Byte.byte_eq_dec.

Definition slice (A : Type) : Type := option (list A).

(** [len(s)]: a nil slice has length 0. *)
Definition len {A} (s : slice A) : nat :=
  match s with
  | None => 0
  | Some l => length l
  end.

(** The elements a [range] loop visits; none for a nil slice. *)
Definition elems {A} (s : slice A) : list A :=
  match s with
  | None => []
  | Some l => l
  end.

(** [s[i]]; [None] where Go panics with an index out of range. *)
Definition index {A} (s : slice A) (i : nat) : option A := elems s !! i.

(** What [encoding/json] stores in an [interface{}]: nil, a bool, a
    [float64] (a binary64 number, as [spec_float]), a string, a
    [[]interface{}] or a [map[string]interface{}]. *)
Inductive Value :=
| VNil
| VBool (b : bool)
| VNumber (f : spec_float)
| VString (s : string)
| VArray (l : list Value)
| VObject (m : gmap string Value).

(** [m[k]] on a [map[string]interface{}]: a missing key reads as the nil
    interface. *)
Definition map_index (m : gmap string Value) (k : string) : Value :=
  default VNil (m !! k).

(** [s == v] for a string [s] and an interface [v]: true exactly when the
    dynamic type of [v] is string and the strings are equal. *)
Definition string_eq_interface (s : string) (v : Value) : bool :=
  match v with
  | VString s' => bool_decide (s = s')
  | _ => false
  end.

(** Errors, by the constructor that builds them.  [runtime_panic] is not
    an error value: it marks the places where the Go code would panic. *)
Inductive error :=
| errors_New (msg : string)
| errors_Wrap (cause : error) (msg : string)
| fmt_Errorf (format : string) (args : list Value)
| json_UnmarshalTypeError
| runtime_panic (msg : string).

Inductive result (A : Type) :=
| Ok (a : A)
| Err (e : error).
Arguments Ok {A} a.
Arguments Err {A} e.

(** ** Paths *)

(** Modelled from the spec: the node types of package
    [pkg/mutation/path/parser] (not in src), after section 3: an Object
    node has a [reference]; a List node has [keyField], an optional
    [keyValue] (a [*string] in the code, dereferenced by
    [validateObjectAssignedToList]) and [glob].  Nodes are held by pointer
    in a [Path]; both [reflect.DeepEqual] and [cmp.Equal] compare the
    pointees, so the value model keeps the pointee. *)
Inductive Node :=
| Object (Reference : string)
| List (KeyField : string) (KeyValue : option string) (Glob : bool).

Inductive NodeType := ObjectNode | ListNode.

Definition Node_Type (n : Node) : NodeType :=
  match n with
  | Object _ => ObjectNode
  | List _ _ _ => ListNode
  end.

Record Path := { Nodes : slice Node }.

#[global] Instance NodeType_eq_dec : EqDecision NodeType.
Proof. solve_decision. Defined.
#[global] Instance Node_eq_dec : EqDecision Node.
Proof. solve_decision. Defined.
#[global] Instance Path_eq_dec : EqDecision Path.
Proof. solve_decision. Defined.

(** Structural comparison of two nodes held by pointer, as
    [reflect.DeepEqual] and [cmp.Equal] perform it: same dynamic type,
    then field by field; two [*string] are equal when both are nil or both
    point to equal strings. *)
Definition KeyValue_Equal (a b : option string) : bool :=
  match a, b with
  | None, None => true
  | Some x, Some y => String.eqb x y
  | _, _ => false
  end.

Definition Node_Equal (a b : Node) : bool :=
  match a, b with
  | Object r1, Object r2 => String.eqb r1 r2
  | List kf1 kv1 g1, List kf2 kv2 g2 =>
      String.eqb kf1 kf2 && KeyValue_Equal kv1 kv2 && Bool.eqb g1 g2
  | _, _ => false
  end.

(** ** The three path checks of the validator *)

Definition hasMetadataRoot (path : Path) : bool :=
  if decide (len (Nodes path) = 0) then false
  else
    match index (Nodes path) 0 with
    | Some n => if Node_Equal n (Object "metadata") then true else false
    | None => false
    end.

Definition checkKeyNotChanged (p : Path) : option error :=
  if decide (len (Nodes p) = 0) then Some (errors_New "empty path")
  else if decide (len (Nodes p) < 2) then None
  else
    match index (Nodes p) (len (Nodes p) - 1),
          index (Nodes p) (len (Nodes p) - 2) with
    | Some lastNode, Some secondLastNode =>
        if negb (bool_decide (Node_Type secondLastNode = ListNode)) then None
        else if negb (bool_decide (Node_Type lastNode = ObjectNode)) then
          Some (errors_New "invalid path format: child of a list can't be a list")
        else
          match lastNode with
          | Object addedObject_Reference =>
              match secondLastNode with
              | List listNode_KeyField _ _ =>
                  if String.eqb addedObject_Reference listNode_KeyField then
                    Some (errors_New
                      "invalid path format: changing the item key is not allowed")
                  else None
              | _ => Some (errors_New "failed converting a ListNodeType to List")
              end
          | _ => Some (errors_New "failed converting an ObjectNodeType to Object")
          end
    | _, _ => Some (runtime_panic "index out of range")
    end.

Definition validateObjectAssignedToList (p : Path) (value : Value)
  : option error :=
  if decide (len (Nodes p) = 0) then Some (errors_New "empty path")
  else
    match index (Nodes p) (len (Nodes p) - 1) with
    | Some lastNode =>
        if negb (bool_decide (Node_Type lastNode = ListNode)) then None
        else
          match lastNode with
          | List KeyField KeyValue Glob =>
              if Glob then Some (errors_New "can't append to a globbed list")
              else
                match KeyValue with
                | None =>
                    Some (errors_New "invalid key value for a non globbed object")
                | Some keyValue =>
                    match value with
                    | VObject valueMap =>
                        if negb (string_eq_interface keyValue
                                   (map_index valueMap KeyField)) then
                          Some (fmt_Errorf
                            "adding object to list with different key %s: list key %s, object key %s"
                            [VString KeyField; VString keyValue;
                             map_index valueMap KeyField])
                        else None
                    | _ =>
                        Some (errors_New
                          "only full objects can be appended to lists")
                    end
                end
          | _ => Some (errors_New "failed converting a ListNodeType to List")
          end
    | None => Some (runtime_panic "index out of range")
    end.

(** ** Structural comparison ([cmp.Equal]) *)

(** Two slices are equal when both are nil, or both are non-nil, of the
    same length and equal element by element. *)
Fixpoint list_Equal {A} (eq : A → A → bool) (a b : list A) : bool :=
  match a, b with
  | [], [] => true
  | x :: a', y :: b' => eq x y && list_Equal eq a' b'
  | _, _ => false
  end.

Definition slice_Equal {A} (eq : A → A → bool) (a b : slice A) : bool :=
  match a, b with
  | None, None => true
  | Some x, Some y => list_Equal eq x y
  | _, _ => false
  end.

Definition Path_Equal (a b : Path) : bool :=
  slice_Equal Node_Equal (Nodes a) (Nodes b).

(** ** Identity and schema bindings *)

(** Modelled from the spec: the type [ID] of [pkg/mutation] (declared
    outside src), after section 3: the group, kind, namespace and name of
    the declaring object, compared by value. *)
Record ID := {
  ID_Group : string;
  ID_Kind : string;
  ID_Name : string;
  ID_Namespace : string
}.

(** Modelled from the spec: [SchemaBinding] (declared outside src), after
    section 3: ordered lists of API groups, kinds and versions, the fields
    [applyToToBindings] fills. *)
Record SchemaBinding := {
  Groups : slice string;
  Kinds : slice string;
  Versions : slice string
}.

(** Modelled from the spec: an [applyTo] entry of the declaration
    ([mutationsv1alpha1.ApplyTo], not in src), with the three fields
    [applyToToBindings] reads. *)
Record ApplyTo := {
  ApplyTo_Groups : slice string;
  ApplyTo_Kinds : slice string;
  ApplyTo_Versions : slice string
}.

#[global] Instance ID_eq_dec : EqDecision ID.
Proof. solve_decision. Defined.
#[global] Instance SchemaBinding_eq_dec : EqDecision SchemaBinding.
Proof. solve_decision. Defined.
#[global] Instance ApplyTo_eq_dec : EqDecision ApplyTo.
Proof. solve_decision. Defined.

Definition ID_Equal (a b : ID) : bool :=
  String.eqb (ID_Group a) (ID_Group b) && String.eqb (ID_Kind a) (ID_Kind b)
  && String.eqb (ID_Name a) (ID_Name b)
  && String.eqb (ID_Namespace a) (ID_Namespace b).

Definition SchemaBinding_Equal (a b : SchemaBinding) : bool :=
  slice_Equal String.eqb (Groups a) (Groups b)
  && slice_Equal String.eqb (Kinds a) (Kinds b)
  && slice_Equal String.eqb (Versions a) (Versions b).

Definition ApplyTo_Equal (a b : ApplyTo) : bool :=
  slice_Equal String.eqb (ApplyTo_Groups a) (ApplyTo_Groups b)
  && slice_Equal String.eqb (ApplyTo_Kinds a) (ApplyTo_Kinds b)
  && slice_Equal String.eqb (ApplyTo_Versions a) (ApplyTo_Versions b).

(** [make([]string, len(src))] followed by the loop
    [for i, g := range src { dst[i] = g }]. *)
Definition make_and_fill (src : slice string) : slice string :=
  Some (foldl (λ dst ig, <[ig.1 := ig.2]> dst)
              (replicate (len src) EmptyString)
              (imap pair (elems src))).

Definition applyToToBindings (applyTos : slice ApplyTo) : slice SchemaBinding :=
  Some (foldl (λ res applyTo,
                 res ++ [ {| Groups := make_and_fill (ApplyTo_Groups applyTo);
                             Kinds := make_and_fill (ApplyTo_Kinds applyTo);
                             Versions := make_and_fill (ApplyTo_Versions applyTo) |} ])
              [] (elems applyTos)).

(** ** The declaration and the mutator record *)

Section Mutator.
(** The match criteria of a declaration and the arguments of the
    applicability predicate are data of other packages; the code only
    passes them on and compares them. *)
Context {Match RuntimeObject Namespace : Type} `{!EqDecision Match}.

(** Modelled from the spec: the declaring object
    ([mutationsv1alpha1.Assign], not in src), after section 3: the
    applyTo entries, the match criteria, the location string and the raw
    value payload ([Spec.Parameters.Assign.Raw]), with the kind,
    namespace and name the identity is derived from. *)
Record AssignSpec := {
  Spec_ApplyTo : slice ApplyTo;
  Spec_Match : Match;
  Spec_Location : string;
  Spec_Parameters_Assign_Raw : slice byte
}.

Record Assign := {
  Assign_Kind : string;
  Assign_Namespace : string;
  Assign_Name : string;
  Assign_Spec : AssignSpec
}.

#[global] Instance AssignSpec_eq_dec : EqDecision AssignSpec.
Proof. solve_decision. Defined.
#[global] Instance Assign_eq_dec : EqDecision Assign.
Proof. solve_decision. Defined.

Definition AssignSpec_Equal (a b : AssignSpec) : bool :=
  slice_Equal ApplyTo_Equal (Spec_ApplyTo a) (Spec_ApplyTo b)
  && bool_decide (Spec_Match a = Spec_Match b)
  && String.eqb (Spec_Location a) (Spec_Location b)
  && slice_Equal Byte.eqb (Spec_Parameters_Assign_Raw a)
                          (Spec_Parameters_Assign_Raw b).

(** Modelled from the spec: [Assign.DeepCopy] (generated code, not in
    src) returns an independent object equal by value; on values it is
    the identity. *)
Definition Assign_DeepCopy (a : Assign) : Assign := a.

(** The struct [AssignMutator], by value: [assign] and [path] are the
    pointees of its two pointers, which [MutatorForAssign] never leaves
    nil. *)
Record AssignMutator := {
  id : ID;
  assign : Assign;
  path : Path;
  bindings : slice SchemaBinding
}.

(** The interface [Mutator]: this kind, or one of the other kinds of the
    package. *)
Inductive Mutator :=
| IsAssignMutator (m : AssignMutator)
| OtherMutator.

(** One call of [log.Error(err, msg, key, value)]. *)
Record LogEntry := {
  log_err : error;
  log_msg : string;
  log_keysAndValues : list (string * string)
}.

(** The functions of other packages that the file calls.
    [parser_Parse] returns a path or an error, never both;
    [json_decode] is [encoding/json] decoding a document into an
    [interface{}]; [Matches] is the package-level applicability
    predicate, which returns a pair as Go functions do. *)
Class Externals := {
  parser_Parse : string → result Path;
  json_decode : list byte → result Value;
  MakeID : Assign → result ID;
  Matches : Match → RuntimeObject → Namespace → bool * option error
}.

Context {ext : Externals}.

(** [json.Unmarshal(raw, &toAssign)] for a fresh
    [toAssign : map[string]interface{}]: a syntax error is returned as
    it is; a JSON object fills the map; [null] leaves a nil map, which
    reads as empty; any other document is a type error. *)
Definition json_Unmarshal_map (raw : slice byte)
  : result (gmap string Value) :=
  match json_decode (elems raw) with
  | Err e => Err e
  | Ok (VObject m) => Ok m
  | Ok VNil => Ok ∅
  | Ok _ => Err json_UnmarshalTypeError
  end.

Definition AssignMutator_Matches (m : AssignMutator) (obj : RuntimeObject)
    (ns : Namespace) : bool * list LogEntry :=
  let '(matches, err) := Matches (Spec_Match (Assign_Spec (assign m))) obj ns in
  match err with
  | Some e =>
      (false, [ {| log_err := e;
                   log_msg := "AssignMutator.Matches failed";
                   log_keysAndValues := [("assign", Assign_Name (assign m))] |} ])
  | None => (matches, [])
  end.

Definition AssignMutator_ID (m : AssignMutator) : ID := id m.

Definition AssignMutator_SchemaBindings (m : AssignMutator)
  : slice SchemaBinding := bindings m.

Definition AssignMutator_Path (m : AssignMutator) : Path := path m.

Definition HasDiff (m : AssignMutator) (mutator : Mutator) : bool :=
  match mutator with
  | OtherMutator => true
  | IsAssignMutator toCheck =>
      if negb (ID_Equal (id toCheck) (id m)) then true
      else if negb (Path_Equal (path toCheck) (path m)) then true
      else if negb (slice_Equal SchemaBinding_Equal (bindings toCheck)
                      (bindings m)) then true
      else if negb (AssignSpec_Equal (Assign_Spec (assign toCheck))
                      (Assign_Spec (assign m))) then true
      else false
  end.

Definition MutatorForAssign (a : Assign) : result AssignMutator :=
  match MakeID a with
  | Err err => Err (errors_Wrap err "Failed to retrieve id for assign type")
  | Ok id0 =>
      match parser_Parse (Spec_Location (Assign_Spec a)) with
      | Err err =>
          Err (errors_Wrap err "Failed to parse the location specified")
      | Ok path0 =>
          Ok {| id := id0;
                assign := Assign_DeepCopy a;
                bindings := applyToToBindings (Spec_ApplyTo (Assign_Spec a));
                path := path0 |}
      end
  end.

Definition IsValidAssign (a : Assign) : option error :=
  match parser_Parse (Spec_Location (Assign_Spec a)) with
  | Err err => Some (errors_Wrap err "invalid location format")
  | Ok path0 =>
      if hasMetadataRoot path0 then
        Some (errors_New "assign can't change metadata")
      else
        match checkKeyNotChanged path0 with
        | Some err => Some err
        | None =>
            match json_Unmarshal_map
                    (Spec_Parameters_Assign_Raw (Assign_Spec a)) with
            | Err err =>
                Some (errors_Wrap err "invalid format for parameters.assign")
            | Ok toAssign =>
                match toAssign !! "value" with
                | None =>
                    Some (errors_New
                      "spec.parameters.assign must have a value field")
                | Some value =>
                    match validateObjectAssignedToList path0 value with
                    | Some err => Some err
                    | None => None
                    end
                end
            end
        end
  end.

End Mutator.

Arguments AssignSpec : clear implicits.
Arguments Assign : clear implicits.
Arguments AssignMutator : clear implicits.
Arguments Mutator : clear implicits.
Arguments Externals : clear implicits.

(** ** A path parser and test doubles for the other externals *)

Definition result_map {A B} (f : A → B) (r : result A) : result B :=
  match r with
  | Ok a => Ok (f a)
  | Err e => Err e
  end.

Definition dquote : ascii := ascii_of_nat 34.

Definition is_delim (c : ascii) : bool :=
  bool_decide (c = "."%char) || bool_decide (c = "["%char)
  || bool_decide (c = "]"%char).

(** The longest prefix free of [.], [[] and []], and what follows it. *)
Fixpoint take_ident (s : string) : string * string :=
  match s with
  | EmptyString => (EmptyString, EmptyString)
  | String c s' =>
      if is_delim c then (EmptyString, s)
      else let '(i, r) := take_ident s' in (String c i, r)
  end.

(** Split at the first occurrence of [d], which is dropped. *)
Fixpoint split_at (d : ascii) (s : string) : option (string * string) :=
  match s with
  | EmptyString => None
  | String c s' =>
      if bool_decide (c = d) then Some (EmptyString, s')
      else
        match split_at d s' with
        | Some (a, b) => Some (String c a, b)
        | None => None
        end
  end.

Fixpoint skip_spaces (s : string) : string :=
  match s with
  | String c s' => if bool_decide (c = " "%char) then skip_spaces s' else s
  | EmptyString => s
  end.

(** The inside of a bracket segment: empty for a glob, else
    [keyField: keyValue], the value bare or between double quotes. *)
Definition parse_bracket (body : string) : result Node :=
  match body with
  | EmptyString => Ok (List EmptyString None true)
  | _ =>
      match split_at "["%char body, split_at ":"%char body with
      | Some _, _ => Err (errors_New "parse error: mismatched brackets")
      | None, None => Err (errors_New "parse error: missing colon")
      | None, Some (EmptyString, _) => Err (errors_New "parse error: empty key")
      | None, Some (k, v) =>
          match skip_spaces v with
          | String c v' =>
              if bool_decide (c = dquote) then
                match split_at dquote v' with
                | Some (val, EmptyString) => Ok (List k (Some val) false)
                | _ => Err (errors_New "parse error: unterminated string")
                end
              else Ok (List k (Some (String c v')) false)
          | EmptyString => Ok (List k (Some EmptyString) false)
          end
      end
  end.

Fixpoint parse_segments (fuel : nat) (s : string) : result (list Node) :=
  match fuel with
  | 0 => Err (errors_New "parse error")
  | S fuel' =>
      match s with
      | EmptyString => Ok []
      | String c rest =>
          if bool_decide (c = "."%char) then
            match take_ident rest with
            | (EmptyString, _) => Err (errors_New "parse error: empty identifier")
            | (i, r) => result_map (cons (Object i)) (parse_segments fuel' r)
            end
          else if bool_decide (c = "["%char) then
            match split_at "]"%char rest with
            | None => Err (errors_New "parse error: mismatched brackets")
            | Some (body, r) =>
                match parse_bracket body with
                | Err e => Err e
                | Ok n => result_map (cons n) (parse_segments fuel' r)
                end
            end
          else Err (errors_New "parse error: unexpected character")
      end
  end.

(** Modelled from the spec: [parser.Parse] of package
    [pkg/mutation/path/parser] (not in src), after the grammar of section
    4.2: segments [.identifier] (the first dot optional), [[]] and
    [[keyField: keyValue]], composed left to right; the empty string, an
    empty identifier, a bracket without colon or key, and mismatched
    brackets are parse errors. *)
Definition spec_Parse (location : string) : result Path :=
  match location with
  | EmptyString => Err (errors_New "parse error: empty location")
  | String c _ =>
      let s := if is_delim c then location else String "."%char location in
      result_map (λ ns, {| Nodes := Some ns |})
                 (parse_segments (S (String.length s)) s)
  end.

(** JSON documents used as payloads, and a decoder that knows them. *)
Definition quoted (s : string) : string :=
  String dquote (s +:+ String dquote EmptyString).

Definition doc_object_nginx : list byte :=
  list_byte_of_string
    ("{" +:+ quoted "value" +:+ ":{" +:+ quoted "name" +:+ ":"
         +:+ quoted "nginx" +:+ "}}").
Definition doc_object_sidecar : list byte :=
  list_byte_of_string
    ("{" +:+ quoted "value" +:+ ":{" +:+ quoted "name" +:+ ":"
         +:+ quoted "sidecar" +:+ "}}").
Definition doc_scalar : list byte :=
  list_byte_of_string ("{" +:+ quoted "value" +:+ ":" +:+ quoted "nginx:1.21" +:+ "}").
Definition doc_no_value : list byte := list_byte_of_string "{}".
Definition doc_string : list byte := list_byte_of_string (quoted "nginx").
Definition doc_null : list byte := list_byte_of_string "null".

Definition stub_decode (raw : list byte) : result Value :=
  if decide (raw = doc_object_nginx) then
    Ok (VObject {[ "value" := VObject {[ "name" := VString "nginx" ]} ]})
  else if decide (raw = doc_object_sidecar) then
    Ok (VObject {[ "value" := VObject {[ "name" := VString "sidecar" ]} ]})
  else if decide (raw = doc_scalar) then
    Ok (VObject {[ "value" := VString "nginx:1.21" ]})
  else if decide (raw = doc_no_value) then Ok (VObject ∅)
  else if decide (raw = doc_string) then Ok (VString "nginx")
  else if decide (raw = doc_null) then Ok VNil
  else Err (errors_New "invalid character").

(** A predicate double: the match criteria say what it answers, [None]
    standing for criteria it fails on. *)
Definition stub_Matches (m : option bool) (obj ns : unit) : bool * option error :=
  match m with
  | Some b => (b, None)
  | None => (true, Some (errors_New "namespace selector: invalid label"))
  end.

Definition stub_MakeID (a : Assign (option bool)) : result ID :=
  match Assign_Name a with
  | EmptyString => Err (errors_New "object has no name")
  | name => Ok {| ID_Group := "mutations.gatekeeper.sh";
                  ID_Kind := Assign_Kind a;
                  ID_Name := name;
                  ID_Namespace := Assign_Namespace a |}
  end.

Definition stub_externals : Externals (option bool) unit unit :=
  {| parser_Parse := spec_Parse;
     json_decode := stub_decode;
     MakeID := stub_MakeID;
     Matches := stub_Matches |}.

Definition mk_assign (location : string) (raw : list byte)
  : Assign (option bool) :=
  {| Assign_Kind := "Assign";
     Assign_Namespace := EmptyString;
     Assign_Name := "demo";
     Assign_Spec := {| Spec_ApplyTo := Some [ {| ApplyTo_Groups := Some ["apps"];
                                                  ApplyTo_Kinds := Some ["Deployment"];
                                                  ApplyTo_Versions := Some ["v1"] |} ];
                       Spec_Match := Some true;
                       Spec_Location := location;
                       Spec_Parameters_Assign_Raw := Some raw |} |}.

(** ** The store: [DeepCopy] with pointers and backing arrays

    [cmp.Equal] and the validator only read values, so the definitions
    above work on values.  [DeepCopy] is about sharing, so it is modelled
    over a store of cells.  An address is an index in the store; a slice
    header is nil or the address of its backing array (the file never
    re-slices, so a header always spans its whole array). *)

Abbreviation loc := nat.

Section Store.
Context {Match : Type}.

(** A [SchemaBinding] struct as it sits in memory: three slice headers. *)
Record SchemaBindingCell := {
  cell_Groups : option loc;
  cell_Kinds : option loc;
  cell_Versions : option loc
}.

Inductive cell :=
| CAssign (a : Assign Match)             (* an Assign object *)
| CPath (nodes : option loc)             (* a parser.Path: its Nodes header *)
| CNodes (arr : list (option loc))       (* backing array of a []Node:
                                            interfaces holding node pointers *)
| CNode (n : Node)                       (* an Object or List struct *)
| CBindings (arr : list SchemaBindingCell) (* backing array of a []SchemaBinding *)
| CStrings (arr : list string).          (* backing array of a []string *)

Local Abbreviation store := (list cell).

(** The struct [AssignMutator]: [assign] and [path] are pointers,
    [bindings] is a slice header. *)
Record AssignMutatorRef := {
  ref_id : ID;
  ref_assign : loc;
  ref_path : loc;
  ref_bindings : option loc
}.

(** Store-passing computations; [None] is a panic (nil dereference). *)
Definition M (A : Type) : Type := store → option (A * store).

Definition ret {A} (a : A) : M A := λ h, Some (a, h).

Definition bind {A B} (c : M A) (k : A → M B) : M B :=
  λ h, match c h with
       | Some (a, h') => k a h'
       | None => None
       end.

Definition alloc (c : cell) : M loc := λ h, Some (length h, h ++ [c]).

Definition load (l : loc) : M cell :=
  λ h, match h !! l with
       | Some c => Some (c, h)
       | None => None
       end.

Definition store_at (l : loc) (c : cell) : M unit :=
  λ h, if decide (l < length h) then Some (tt, <[l := c]> h) else None.

Local Notation "'do' x <- c ; k" := (bind c (λ x, k))
  (at level 10, x name, c at level 100, k at level 200).

(** [len(s)] for the three kinds of slices in the store. *)
Definition len_at (s : option loc) : M nat :=
  match s with
  | None => ret 0
  | Some l =>
      do c <- load l;
      match c with
      | CNodes arr => ret (length arr)
      | CBindings arr => ret (length arr)
      | CStrings arr => ret (length arr)
      | _ => λ _, None
      end
  end.

(** The builtin [copy(dst, src)] on list contents: the first
    [min(len(dst), len(src))] elements of [dst] are overwritten. *)
Definition copy_elems {A} (dst src : list A) : list A :=
  take (length dst) src ++ drop (length src) dst.

Definition copy_Nodes (dst src : option loc) : M unit :=
  match dst, src with
  | Some d, Some s =>
      do cd <- load d;
      do cs <- load s;
      match cd, cs with
      | CNodes ad, CNodes as_ => store_at d (CNodes (copy_elems ad as_))
      | _, _ => λ _, None
      end
  | _, _ => ret tt
  end.

Definition copy_Bindings (dst src : option loc) : M unit :=
  match dst, src with
  | Some d, Some s =>
      do cd <- load d;
      do cs <- load s;
      match cd, cs with
      | CBindings ad, CBindings as_ => store_at d (CBindings (copy_elems ad as_))
      | _, _ => λ _, None
      end
  | _, _ => ret tt
  end.

(** Modelled from the spec: [Assign.DeepCopy] (generated code, not in
    src) on the store: a new object, equal by value, sharing nothing. *)
Definition Assign_DeepCopy_at (l : loc) : M loc :=
  do c <- load l;
  match c with
  | CAssign a => alloc (CAssign (Assign_DeepCopy a))
  | _ => λ _, None
  end.

Definition path_Nodes_at (l : loc) : M (option loc) :=
  do c <- load l;
  match c with
  | CPath nodes => ret nodes
  | _ => λ _, None
  end.

Definition zero_SchemaBinding : SchemaBindingCell :=
  {| cell_Groups := None; cell_Kinds := None; cell_Versions := None |}.

Definition AssignMutator_DeepCopy (m : AssignMutatorRef) : M AssignMutatorRef :=
  do assign' <- Assign_DeepCopy_at (ref_assign m);
  do nodes <- path_Nodes_at (ref_path m);
  do n <- len_at nodes;
  do nodes' <- alloc (CNodes (replicate n None));
  do path' <- alloc (CPath (Some nodes'));
  do nb <- len_at (ref_bindings m);
  do bindings' <- alloc (CBindings (replicate nb zero_SchemaBinding));
  do _ <- copy_Nodes (Some nodes') nodes;
  do _ <- copy_Bindings (Some bindings') (ref_bindings m);
  ret {| ref_id := ref_id m;
         ref_assign := assign';
         ref_path := path';
         ref_bindings := Some bindings' |}.

(** *** Reading a record out of the store

    The value a record stands for: what [HasDiff] and any other reader
    sees when it follows the pointers. *)

Definition read_strings (h : store) (s : option loc) : option (slice string) :=
  match s with
  | None => Some None
  | Some l =>
      match h !! l with
      | Some (CStrings arr) => Some (Some arr)
      | _ => None
      end
  end.

Definition read_binding (h : store) (b : SchemaBindingCell)
  : option SchemaBinding :=
  g ← read_strings h (cell_Groups b);
  k ← read_strings h (cell_Kinds b);
  v ← read_strings h (cell_Versions b);
  Some {| Groups := g; Kinds := k; Versions := v |}.

Definition read_bindings (h : store) (s : option loc)
  : option (slice SchemaBinding) :=
  match s with
  | None => Some None
  | Some l =>
      match h !! l with
      | Some (CBindings arr) => Some <$> mapM (read_binding h) arr
      | _ => None
      end
  end.

Definition read_node (h : store) (n : option loc) : option Node :=
  match n with
  | None => None
  | Some l =>
      match h !! l with
      | Some (CNode nd) => Some nd
      | _ => None
      end
  end.

Definition read_path (h : store) (l : loc) : option Path :=
  match h !! l with
  | Some (CPath None) => Some {| Nodes := None |}
  | Some (CPath (Some arr)) =>
      match h !! arr with
      | Some (CNodes ns) =>
          (λ l, {| Nodes := Some l |}) <$> mapM (read_node h) ns
      | _ => None
      end
  | _ => None
  end.

Definition read_assign (h : store) (l : loc) : option (Assign Match) :=
  match h !! l with
  | Some (CAssign a) => Some a
  | _ => None
  end.

Definition read_mutator (h : store) (m : AssignMutatorRef)
  : option (AssignMutator Match) :=
  a ← read_assign h (ref_assign m);
  p ← read_path h (ref_path m);
  b ← read_bindings h (ref_bindings m);
  Some {| id := ref_id m; assign := a; path := p; bindings := b |}.

(** *** What is reachable from a record *)

Definition reach_slice (s : option loc) : list loc :=
  match s with
  | None => []
  | Some l => [l]
  end.

Definition reach_binding (b : SchemaBindingCell) : list loc :=
  reach_slice (cell_Groups b) ++ reach_slice (cell_Kinds b)
  ++ reach_slice (cell_Versions b).

Definition reach_bindings (h : store) (s : option loc) : list loc :=
  match s with
  | None => []
  | Some l =>
      l :: match h !! l with
           | Some (CBindings arr) => concat (reach_binding <$> arr)
           | _ => []
           end
  end.

Definition reach_path (h : store) (l : loc) : list loc :=
  l :: match h !! l with
       | Some (CPath (Some arr)) =>
           arr :: match h !! arr with
                  | Some (CNodes ns) => omap (λ n, n) ns
                  | _ => []
                  end
       | _ => []
       end.

(** The addresses of every cell a holder of [m] can write to. *)
Definition reachable (h : store) (m : AssignMutatorRef) : list loc :=
  ref_assign m :: reach_path h (ref_path m)
  ++ reach_bindings h (ref_bindings m).

(** *** Writes through a record *)

(** Assign [r] to the field [Reference] of the Object node that
    [m.path.Nodes[i]] points to. *)
Definition set_node_Reference (m : AssignMutatorRef) (i : nat) (r : string)
  : M unit :=
  do nodes <- path_Nodes_at (ref_path m);
  match nodes with
  | None => λ _, None
  | Some arr =>
      do c <- load arr;
      match c with
      | CNodes ns =>
          match ns !! i with
          | Some (Some l) =>
              do nd <- load l;
              match nd with
              | CNode (Object _) => store_at l (CNode (Object r))
              | _ => λ _, None
              end
          | _ => λ _, None
          end
      | _ => λ _, None
      end
  end.

(** [m.bindings[i].Groups[j] = g]. *)
Definition set_binding_Group (m : AssignMutatorRef) (i j : nat) (g : string)
  : M unit :=
  match ref_bindings m with
  | None => λ _, None
  | Some barr =>
      do c <- load barr;
      match c with
      | CBindings bs =>
          match bs !! i with
          | Some b =>
              match cell_Groups b with
              | Some garr =>
                  do cg <- load garr;
                  match cg with
                  | CStrings ss =>
                      if decide (j < length ss)
                      then store_at garr (CStrings (<[j := g]> ss))
                      else λ _, None
                  | _ => λ _, None
                  end
              | None => λ _, None
              end
          | None => λ _, None
          end
      | _ => λ _, None
      end
  end.

End Store.

Arguments cell : clear implicits.
Arguments M : clear implicits.

Abbreviation store Match := (list (cell Match)).

(** ** Concrete declarations and a concrete store *)

Definition assign_nginx : Assign (option bool) :=
  mk_assign "spec.containers[name: nginx]" doc_object_nginx.

Definition assign_sidecar : Assign (option bool) :=
  mk_assign "spec.containers[name: nginx]" doc_object_sidecar.

Definition assign_key_change : Assign (option bool) :=
  mk_assign "spec.containers[name: nginx].name" doc_scalar.

Definition assign_metadata : Assign (option bool) :=
  mk_assign "metadata.labels.team" doc_scalar.

Definition assign_image : Assign (option bool) :=
  mk_assign "spec.containers[name: nginx].image" doc_scalar.

Definition assign_no_value : Assign (option bool) :=
  mk_assign "spec.replicas" doc_no_value.

(** A parser double that answers the path without nodes, which
    [spec_Parse] never does. *)
Definition empty_path_externals : Externals (option bool) unit unit :=
  {| parser_Parse := λ _, Ok {| Nodes := Some [] |};
     json_decode := stub_decode;
     MakeID := stub_MakeID;
     Matches := stub_Matches |}.

(** A record whose match criteria make the predicate double fail. *)
Definition mutator_failing_match : AssignMutator (option bool) :=
  {| id := {| ID_Group := "mutations.gatekeeper.sh"; ID_Kind := "Assign";
              ID_Name := "demo"; ID_Namespace := EmptyString |};
     assign := {| Assign_Kind := "Assign";
                  Assign_Namespace := EmptyString;
                  Assign_Name := "demo";
                  Assign_Spec := {| Spec_ApplyTo := None;
                                    Spec_Match := None;
                                    Spec_Location := "spec.replicas";
                                    Spec_Parameters_Assign_Raw := Some doc_scalar |} |};
     path := {| Nodes := Some [Object "spec"; Object "replicas"] |};
     bindings := Some [] |}.

(** The record of [assign_image]'s kind for the path [spec.containers],
    laid out in a store: the declaration at 0, the two nodes at 1 and 2,
    the backing array of [Nodes] at 3, the path at 4, three string arrays
    at 5 to 7 and the backing array of [bindings] at 8. *)
Definition store0 : store (option bool) :=
  [ CAssign (mk_assign "spec.containers" doc_scalar);
    CNode (Object "spec");
    CNode (Object "containers");
    CNodes [Some 1; Some 2];
    CPath (Some 3);
    CStrings ["apps"];
    CStrings ["Deployment"];
    CStrings ["v1"];
    CBindings [ {| cell_Groups := Some 5; cell_Kinds := Some 6;
                   cell_Versions := Some 7 |} ] ].

Definition mutator0 : AssignMutatorRef :=
  {| ref_id := {| ID_Group := "mutations.gatekeeper.sh"; ID_Kind := "Assign";
                  ID_Name := "demo"; ID_Namespace := EmptyString |};
     ref_assign := 0;
     ref_path := 4;
     ref_bindings := Some 8 |}.

(** The declaration at [metadata.labels.team] with a payload that has no
    [value] field. *)
Definition assign_metadata_no_value : Assign (option bool) :=
  mk_assign "metadata.labels.team" doc_no_value.

(** The record [mutator0] with a nil [bindings] slice. *)
Definition mutator0_nil_bindings : AssignMutatorRef :=
  {| ref_id := ref_id mutator0;
     ref_assign := 0;
     ref_path := 4;
     ref_bindings := None |}.

(** * Properties *)

(** ** The comparators decide equality of values *)

Lemma KeyValue_Equal_eq (a b : option string) :
  KeyValue_Equal a b = true ↔ a = b.
Proof.
  destruct a as [x|], b as [y|]; simpl; try (split; congruence).
  rewrite String.eqb_eq. split; congruence.
Qed.

Lemma Node_Equal_eq (a b : Node) : Node_Equal a b = true ↔ a = b.
Proof.
  destruct a as [r1|kf1 kv1 g1], b as [r2|kf2 kv2 g2]; simpl;
    try (split; congruence).
  - rewrite String.eqb_eq. split; congruence.
  - rewrite !andb_true_iff, String.eqb_eq, KeyValue_Equal_eq,
      Bool.eqb_true_iff.
    split; [intros [[-> ->] ->]; reflexivity | intros [= -> -> ->]; auto].
Qed.

Lemma list_Equal_eq {A} (eq : A → A → bool) :
  (∀ x y, eq x y = true ↔ x = y) →
  ∀ a b, list_Equal eq a b = true ↔ a = b.
Proof.
  intros Heq a. induction a as [|x a IH]; intros [|y b]; simpl;
    try (split; congruence).
  rewrite andb_true_iff, Heq, IH. split; [intros [-> ->] | intros [= -> ->]]; auto.
Qed.

Lemma slice_Equal_eq {A} (eq : A → A → bool) :
  (∀ x y, eq x y = true ↔ x = y) →
  ∀ a b : slice A, slice_Equal eq a b = true ↔ a = b.
Proof.
  intros Heq [x|] [y|]; simpl; try (split; congruence).
  rewrite (list_Equal_eq eq Heq). split; congruence.
Qed.

Lemma Path_Equal_eq (a b : Path) : Path_Equal a b = true ↔ a = b.
Proof.
  unfold Path_Equal. rewrite (slice_Equal_eq _ Node_Equal_eq).
  destruct a, b; simpl. split; congruence.
Qed.

Lemma ID_Equal_eq (a b : ID) : ID_Equal a b = true ↔ a = b.
Proof.
  unfold ID_Equal. rewrite !andb_true_iff, !String.eqb_eq.
  destruct a, b; simpl. split; [intros [[[-> ->] ->] ->] | intros [= -> -> -> ->]]; auto.
Qed.

Lemma strings_Equal_eq (a b : slice string) :
  slice_Equal String.eqb a b = true ↔ a = b.
Proof. apply slice_Equal_eq, String.eqb_eq. Qed.

Lemma SchemaBinding_Equal_eq (a b : SchemaBinding) :
  SchemaBinding_Equal a b = true ↔ a = b.
Proof.
  unfold SchemaBinding_Equal. rewrite !andb_true_iff, !strings_Equal_eq.
  destruct a, b; simpl. split; [intros [[-> ->] ->] | intros [= -> -> ->]]; auto.
Qed.

Lemma ApplyTo_Equal_eq (a b : ApplyTo) : ApplyTo_Equal a b = true ↔ a = b.
Proof.
  unfold ApplyTo_Equal. rewrite !andb_true_iff, !strings_Equal_eq.
  destruct a, b; simpl. split; [intros [[-> ->] ->] | intros [= -> -> ->]]; auto.
Qed.

Lemma Byte_eqb_eq (x y : byte) : Byte.eqb x y = true ↔ x = y.
Proof. split; [apply Byte.byte_dec_bl | apply Byte.byte_dec_lb]. Qed.

Lemma AssignSpec_Equal_eq {Match} `{!EqDecision Match} (a b : AssignSpec Match) :
  AssignSpec_Equal a b = true ↔ a = b.
Proof.
  unfold AssignSpec_Equal.
  rewrite !andb_true_iff, (slice_Equal_eq _ ApplyTo_Equal_eq),
    bool_decide_eq_true, String.eqb_eq, (slice_Equal_eq _ Byte_eqb_eq).
  destruct a, b; simpl.
  split; [intros [[[-> ->] ->] ->] | intros [= -> -> -> ->]]; auto.
Qed.

(** ** Reading the last nodes of a path *)

Lemma index_last {A} (s : slice A) : index s (len s - 1) = last (elems s).
Proof.
  unfold index, len. destruct s as [l|]; simpl; [|reflexivity].
  rewrite last_lookup. f_equal; lia.
Qed.

Lemma last_len {A} (s : slice A) (x : A) :
  last (elems s) = Some x → len s ≠ 0.
Proof.
  destruct s as [[|y l]|]; simpl; intros H; discriminate || lia.
Qed.

Lemma validateObjectAssignedToList_Object p r value :
  last (elems (Nodes p)) = Some (Object r) →
  validateObjectAssignedToList p value = None.
Proof.
  intros Hlast. unfold validateObjectAssignedToList.
  pose proof (last_len _ _ Hlast).
  rewrite index_last, Hlast. case_decide; [lia|]. reflexivity.
Qed.

Lemma validateObjectAssignedToList_List p kf kv g value :
  last (elems (Nodes p)) = Some (List kf kv g) →
  validateObjectAssignedToList p value =
    if g then Some (errors_New "can't append to a globbed list")
    else
      match kv with
      | None => Some (errors_New "invalid key value for a non globbed object")
      | Some keyValue =>
          match value with
          | VObject valueMap =>
              if negb (string_eq_interface keyValue (map_index valueMap kf))
              then
                Some (fmt_Errorf
                  "adding object to list with different key %s: list key %s, object key %s"
                  [VString kf; VString keyValue; map_index valueMap kf])
              else None
          | _ => Some (errors_New "only full objects can be appended to lists")
          end
      end.
Proof.
  intros Hlast. unfold validateObjectAssignedToList.
  pose proof (last_len _ _ Hlast).
  rewrite index_last, Hlast. case_decide; [lia|]. reflexivity.
Qed.

Lemma string_eq_interface_true s v :
  string_eq_interface s v = true ↔ v = VString s.
Proof.
  destruct v; simpl; try (split; congruence).
  rewrite bool_decide_eq_true. split; congruence.
Qed.

Lemma hasMetadataRoot_true p :
  hasMetadataRoot p = true ↔ index (Nodes p) 0 = Some (Object "metadata").
Proof.
  unfold hasMetadataRoot, index, len.
  destruct (Nodes p) as [[|n l]|]; simpl; try (split; congruence).
  destruct (Node_Equal n (Object "metadata")) eqn:E.
  - apply Node_Equal_eq in E as ->. tauto.
  - split; [congruence|]. intros [= ->].
    assert (Node_Equal (Object "metadata") (Object "metadata") = true)
      by (apply Node_Equal_eq; reflexivity).
    congruence.
Qed.



(** ** The validator *)

Section Validation.
Context {Match RuntimeObject Namespace : Type} `{!EqDecision Match}
        {ext : Externals Match RuntimeObject Namespace}.
Implicit Types (a : Assign Match) (p : Path).

Local Abbreviation location a := (Spec_Location (Assign_Spec a)).
Local Abbreviation raw a := (Spec_Parameters_Assign_Raw (Assign_Spec a)).

Lemma IsValidAssign_parsed a p :
  parser_Parse (location a) = Ok p →
  IsValidAssign a =
    if hasMetadataRoot p then Some (errors_New "assign can't change metadata")
    else
      match checkKeyNotChanged p with
      | Some err => Some err
      | None =>
          match json_Unmarshal_map (raw a) with
          | Err err =>
              Some (errors_Wrap err "invalid format for parameters.assign")
          | Ok toAssign =>
              match toAssign !! "value" with
              | None =>
                  Some (errors_New
                    "spec.parameters.assign must have a value field")
              | Some value => validateObjectAssignedToList p value
              end
          end
      end.
Proof.
  intros Hp. unfold IsValidAssign. rewrite Hp.
  repeat case_match; congruence.
Qed.

(** What an accepted declaration went through. *)
Lemma IsValidAssign_accepts_inv a p :
  parser_Parse (location a) = Ok p →
  IsValidAssign a = None →
  hasMetadataRoot p = false ∧ checkKeyNotChanged p = None ∧
  ∃ toAssign value,
    json_Unmarshal_map (raw a) = Ok toAssign ∧
    toAssign !! "value" = Some value ∧
    validateObjectAssignedToList p value = None.
Proof.
  intros Hp. rewrite (IsValidAssign_parsed a p Hp).
  destruct (hasMetadataRoot p); [discriminate|].
  destruct (checkKeyNotChanged p); [discriminate|].
  destruct (json_Unmarshal_map (raw a)) as [toAssign|]; [|discriminate].
  destruct (toAssign !! "value") as [value|] eqn:Hv; [|discriminate].
  eauto 10.
Qed.

Lemma IsValidAssign_accepts a p toAssign value :
  parser_Parse (location a) = Ok p →
  hasMetadataRoot p = false →
  checkKeyNotChanged p = None →
  json_Unmarshal_map (raw a) = Ok toAssign →
  toAssign !! "value" = Some value →
  IsValidAssign a = validateObjectAssignedToList p value.
Proof.
  intros Hp Hm Hk Hj Hv.
  rewrite (IsValidAssign_parsed a p Hp), Hm, Hk, Hj, Hv. reflexivity.
Qed.

Lemma json_Unmarshal_map_Ok a toAssign :
  json_Unmarshal_map (raw a) = Ok toAssign →
  json_decode (elems (raw a)) = Ok (VObject toAssign)
  ∨ (json_decode (elems (raw a)) = Ok VNil ∧ toAssign = ∅).
Proof.
  unfold json_Unmarshal_map.
  destruct (json_decode (elems (raw a))) as [[]|]; intros [= <-]; auto.
Qed.

Lemma checkKeyNotChanged_last_two p lastNode secondLastNode :
  (2 ≤ len (Nodes p))%nat →
  index (Nodes p) (len (Nodes p) - 1) = Some lastNode →
  index (Nodes p) (len (Nodes p) - 2) = Some secondLastNode →
  checkKeyNotChanged p =
    match secondLastNode, lastNode with
    | Object _, _ => None
    | List _ _ _, List _ _ _ =>
        Some (errors_New "invalid path format: child of a list can't be a list")
    | List kf _ _, Object r =>
        if String.eqb r kf then
          Some (errors_New
            "invalid path format: changing the item key is not allowed")
        else None
    end.
Proof.
  intros Hlen Hl Hs. unfold checkKeyNotChanged. rewrite Hl, Hs.
  destruct (decide (len (Nodes p) = 0)); [lia|].
  destruct (decide (len (Nodes p) < 2)); [lia|].
  destruct secondLastNode, lastNode; reflexivity.
Qed.

Lemma checkKeyNotChanged_single p :
  len (Nodes p) = 1 → checkKeyNotChanged p = None.
Proof.
  intros Hlen. unfold checkKeyNotChanged.
  destruct (decide (len (Nodes p) = 0)); [lia|].
  destruct (decide (len (Nodes p) < 2)); [reflexivity|lia].
Qed.

(** C1. Path ending in a List node: the declaration is rejected when
    the node is globbed, when it has no keyValue, when the extracted
    [value] is not an object, and when the object's field named by
    keyField differs from keyValue; in the last case, once the earlier
    rules pass, the error carries the key field, the keyValue and the
    object's value.  When the field equals keyValue and the other rules
    are satisfied, the declaration is accepted. *)
Theorem IsValidAssign_last_List a p kf kv g :
  parser_Parse (location a) = Ok p →
  last (elems (Nodes p)) = Some (List kf kv g) →
  (g = true → is_Some (IsValidAssign a))
  ∧ (kv = None → is_Some (IsValidAssign a))
  ∧ (∀ toAssign value,
       json_Unmarshal_map (raw a) = Ok toAssign →
       toAssign !! "value" = Some value →
       (∀ m, value ≠ VObject m) →
       is_Some (IsValidAssign a))
  ∧ (∀ toAssign valueMap keyValue,
       json_Unmarshal_map (raw a) = Ok toAssign →
       toAssign !! "value" = Some (VObject valueMap) →
       kv = Some keyValue →
       map_index valueMap kf ≠ VString keyValue →
       is_Some (IsValidAssign a)
       ∧ (hasMetadataRoot p = false → checkKeyNotChanged p = None →
          g = false →
          IsValidAssign a =
            Some (fmt_Errorf
              "adding object to list with different key %s: list key %s, object key %s"
              [VString kf; VString keyValue; map_index valueMap kf])))
  ∧ (∀ toAssign valueMap keyValue,
       json_Unmarshal_map (raw a) = Ok toAssign →
       toAssign !! "value" = Some (VObject valueMap) →
       kv = Some keyValue →
       map_index valueMap kf = VString keyValue →
       hasMetadataRoot p = false → checkKeyNotChanged p = None →
       g = false →
       IsValidAssign a = None).
Proof.
  intros Hp Hlast.
  assert (Hrej : ∀ toAssign value,
    json_Unmarshal_map (raw a) = Ok toAssign →
    toAssign !! "value" = Some value →
    is_Some (validateObjectAssignedToList p value) →
    is_Some (IsValidAssign a)).
  { intros toAssign value Hj Hv Hval. apply not_eq_None_Some. intros Hacc.
    destruct (IsValidAssign_accepts_inv a p Hp Hacc)
      as (_ & _ & t' & v' & Hj' & Hv' & Hnone).
    rewrite Hj in Hj'. injection Hj' as <-.
    rewrite Hv in Hv'. injection Hv' as <-.
    rewrite Hnone in Hval. by destruct Hval. }
  assert (Hany : (∀ value, is_Some (validateObjectAssignedToList p value)) →
                 is_Some (IsValidAssign a)).
  { intros Hval. apply not_eq_None_Some. intros Hacc.
    destruct (IsValidAssign_accepts_inv a p Hp Hacc)
      as (_ & _ & t' & v' & _ & _ & Hnone).
    specialize (Hval v'). rewrite Hnone in Hval. by destruct Hval. }
  repeat split.
  - intros ->. apply Hany. intros value.
    rewrite (validateObjectAssignedToList_List _ _ _ _ _ Hlast). eauto.
  - intros ->. apply Hany. intros value.
    rewrite (validateObjectAssignedToList_List _ _ _ _ _ Hlast).
    destruct g; eauto.
  - intros toAssign value Hj Hv Hnot. apply (Hrej toAssign value Hj Hv).
    rewrite (validateObjectAssignedToList_List _ _ _ _ _ Hlast).
    destruct g; [eauto|]. destruct kv; [|eauto].
    destruct value; eauto. by destruct (Hnot m).
  - apply (Hrej toAssign (VObject valueMap)); [done..|].
    rewrite (validateObjectAssignedToList_List _ _ _ _ _ Hlast).
    destruct g; [eauto|]. subst kv.
    destruct (string_eq_interface keyValue (map_index valueMap kf)) eqn:E;
      simpl; [|eauto].
    by apply string_eq_interface_true in E.
  - intros Hm Hk ->.
    rewrite (IsValidAssign_accepts a p toAssign (VObject valueMap)) by done.
    rewrite (validateObjectAssignedToList_List _ _ _ _ _ Hlast). subst kv.
    destruct (string_eq_interface keyValue (map_index valueMap kf)) eqn:E;
      simpl; [|reflexivity].
    by apply string_eq_interface_true in E.
  - intros toAssign valueMap keyValue Hj Hv -> Heq Hm Hk ->.
    rewrite (IsValidAssign_accepts a p toAssign (VObject valueMap)) by done.
    rewrite (validateObjectAssignedToList_List _ _ _ _ _ Hlast).
    apply string_eq_interface_true in Heq. rewrite Heq. reflexivity.
Qed.

(** C2. Path of at least two nodes whose second-to-last node is a List
    node: the declaration is rejected when the last node is an Object
    node naming the List node's keyField, and when the last node is not
    an Object node; when the second-to-last node is not a List node the
    key check passes. *)
Theorem IsValidAssign_key_not_changed a p lastNode secondLastNode :
  parser_Parse (location a) = Ok p →
  (2 ≤ len (Nodes p))%nat →
  index (Nodes p) (len (Nodes p) - 1) = Some lastNode →
  index (Nodes p) (len (Nodes p) - 2) = Some secondLastNode →
  (∀ kf kv g r,
     secondLastNode = List kf kv g → lastNode = Object r → r = kf →
     is_Some (IsValidAssign a)
     ∧ (hasMetadataRoot p = false →
        IsValidAssign a =
          Some (errors_New
            "invalid path format: changing the item key is not allowed")))
  ∧ (∀ kf kv g,
       secondLastNode = List kf kv g → Node_Type lastNode ≠ ObjectNode →
       is_Some (IsValidAssign a)
       ∧ (hasMetadataRoot p = false →
          IsValidAssign a =
            Some (errors_New
              "invalid path format: child of a list can't be a list")))
  ∧ (Node_Type secondLastNode ≠ ListNode → checkKeyNotChanged p = None).
Proof.
  intros Hp Hlen Hl Hs.
  pose proof (checkKeyNotChanged_last_two p _ _ Hlen Hl Hs) as Hck.
  pose proof (IsValidAssign_parsed a p Hp) as Hv.
  repeat split.
  - subst. rewrite String.eqb_refl in Hck. rewrite Hv, Hck.
    destruct (hasMetadataRoot p); eauto.
  - intros Hm. subst. rewrite String.eqb_refl in Hck.
    rewrite Hv, Hck, Hm. reflexivity.
  - subst. destruct lastNode; [done|]. rewrite Hv, Hck.
    destruct (hasMetadataRoot p); eauto.
  - intros Hm. subst. destruct lastNode; [done|].
    rewrite Hv, Hck, Hm. reflexivity.
  - intros Hnot. rewrite Hck. destruct secondLastNode; [reflexivity|].
    by destruct Hnot.
Qed.

(** C3. A path whose first node is the Object node "metadata" is
    rejected, whatever the payload. *)
Theorem IsValidAssign_metadata_root a p :
  parser_Parse (location a) = Ok p →
  index (Nodes p) 0 = Some (Object "metadata") →
  IsValidAssign a = Some (errors_New "assign can't change metadata").
Proof.
  intros Hp Hroot. rewrite (IsValidAssign_parsed a p Hp).
  apply hasMetadataRoot_true in Hroot. rewrite Hroot. reflexivity.
Qed.

(** C4. A payload that does not decode, that decodes to something other
    than an object, or whose object has no field [value], is rejected;
    otherwise the list rule is applied to the extracted [value]. *)
Theorem IsValidAssign_value_shape a :
  (∀ e, json_decode (elems (raw a)) = Err e → is_Some (IsValidAssign a))
  ∧ (∀ v, json_decode (elems (raw a)) = Ok v → (∀ m, v ≠ VObject m) →
          is_Some (IsValidAssign a))
  ∧ (∀ m, json_decode (elems (raw a)) = Ok (VObject m) →
          m !! "value" = None → is_Some (IsValidAssign a))
  ∧ (∀ p m value,
       parser_Parse (location a) = Ok p →
       hasMetadataRoot p = false → checkKeyNotChanged p = None →
       json_decode (elems (raw a)) = Ok (VObject m) →
       m !! "value" = Some value →
       IsValidAssign a = validateObjectAssignedToList p value).
Proof.
  assert (Hrej : (∀ toAssign, json_Unmarshal_map (raw a) = Ok toAssign →
                              toAssign !! "value" = None) →
                 is_Some (IsValidAssign a)).
  { intros Hno. apply not_eq_None_Some. intros Hacc.
    destruct (parser_Parse (location a)) as [p|e] eqn:Hp.
    - destruct (IsValidAssign_accepts_inv a p Hp Hacc)
        as (_ & _ & t & v & Hj & Hv & _).
      rewrite (Hno t Hj) in Hv. discriminate.
    - unfold IsValidAssign in Hacc. rewrite Hp in Hacc. discriminate. }
  repeat split.
  - intros e He. apply Hrej. intros t. unfold json_Unmarshal_map.
    rewrite He. discriminate.
  - intros v Hv Hnot. apply Hrej. intros t. unfold json_Unmarshal_map.
    rewrite Hv. destruct v; try discriminate.
    + intros [= <-]. apply lookup_empty.
    + by destruct (Hnot m).
  - intros m Hm Hv. apply Hrej. intros t. unfold json_Unmarshal_map.
    rewrite Hm. by intros [= <-].
  - intros p m value Hp Hmeta Hk Hm Hv.
    apply (IsValidAssign_accepts a p m value); try done.
    unfold json_Unmarshal_map. rewrite Hm. reflexivity.
Qed.

(** C5. A path with no nodes is rejected, whatever the payload: the key
    check answers "empty path" before the payload is read, and so would
    the list check for every value. *)
Theorem IsValidAssign_empty_path a p :
  parser_Parse (location a) = Ok p →
  len (Nodes p) = 0 →
  IsValidAssign a = Some (errors_New "empty path")
  ∧ checkKeyNotChanged p = Some (errors_New "empty path")
  ∧ ∀ value,
      validateObjectAssignedToList p value = Some (errors_New "empty path").
Proof.
  intros Hp Hlen. rewrite (IsValidAssign_parsed a p Hp).
  unfold hasMetadataRoot, checkKeyNotChanged, validateObjectAssignedToList.
  destruct (decide (len (Nodes p) = 0)); [|lia]. auto.
Qed.

(** C10. Path ending in an Object node that passes the metadata-root
    and key checks: the declaration is accepted whatever the extracted
    [value] is. *)
Theorem IsValidAssign_last_Object a p r toAssign value :
  parser_Parse (location a) = Ok p →
  last (elems (Nodes p)) = Some (Object r) →
  hasMetadataRoot p = false →
  checkKeyNotChanged p = None →
  json_Unmarshal_map (raw a) = Ok toAssign →
  toAssign !! "value" = Some value →
  IsValidAssign a = None.
Proof.
  intros Hp Hlast Hm Hk Hj Hv.
  rewrite (IsValidAssign_accepts a p toAssign value) by done.
  by apply validateObjectAssignedToList_Object with r.
Qed.

End Validation.

(** ** The mutator record *)

Section Record.
Context {Match RuntimeObject Namespace : Type} `{!EqDecision Match}
        {ext : Externals Match RuntimeObject Namespace}.
Implicit Types (a : Assign Match) (m : AssignMutator Match).

(** C6. When the applicability predicate returns an error, [Matches]
    answers false, whatever boolean came with the error, and logs the
    error with the name of the declaration. *)
Theorem AssignMutator_Matches_fail_closed m (obj : RuntimeObject)
    (ns : Namespace) (b : bool) (e : error) :
  Matches (Spec_Match (Assign_Spec (assign m))) obj ns = (b, Some e) →
  AssignMutator_Matches m obj ns =
    (false, [ {| log_err := e;
                 log_msg := "AssignMutator.Matches failed";
                 log_keysAndValues := [("assign", Assign_Name (assign m))] |} ]).
Proof. intros H. unfold AssignMutator_Matches. rewrite H. reflexivity. Qed.

Lemma AssignMutator_Matches_no_error m (obj : RuntimeObject)
    (ns : Namespace) (b : bool) :
  Matches (Spec_Match (Assign_Spec (assign m))) obj ns = (b, None) →
  AssignMutator_Matches m obj ns = (b, []).
Proof. intros H. unfold AssignMutator_Matches. rewrite H. reflexivity. Qed.

Lemma HasDiff_false_iff m m' :
  HasDiff m (IsAssignMutator m') = false ↔
  id m' = id m ∧ path m' = path m ∧ bindings m' = bindings m
  ∧ Assign_Spec (assign m') = Assign_Spec (assign m).
Proof.
  unfold HasDiff.
  rewrite <- ID_Equal_eq, <- Path_Equal_eq,
    <- (slice_Equal_eq _ SchemaBinding_Equal_eq), <- AssignSpec_Equal_eq.
  destruct (ID_Equal _ _), (Path_Equal _ _),
    (slice_Equal SchemaBinding_Equal _ _), (AssignSpec_Equal _ _);
    simpl; intuition congruence.
Qed.

(** C7. [HasDiff] between two Assign mutators is true exactly when the
    identity, the path, the bindings or the declaration's spec differ,
    and false exactly when all four are equal. *)
Theorem HasDiff_iff m m' :
  (HasDiff m (IsAssignMutator m') = true ↔
     id m ≠ id m' ∨ path m ≠ path m' ∨ bindings m ≠ bindings m'
     ∨ Assign_Spec (assign m) ≠ Assign_Spec (assign m'))
  ∧ (HasDiff m (IsAssignMutator m') = false ↔
     id m = id m' ∧ path m = path m' ∧ bindings m = bindings m'
     ∧ Assign_Spec (assign m) = Assign_Spec (assign m')).
Proof.
  pose proof (HasDiff_false_iff m m') as Hf.
  split; [|rewrite Hf; intuition congruence].
  rewrite <- not_false_iff_true, Hf. split.
  - intros Hn.
    destruct (decide (id m = id m')) as [E1|]; [|by auto].
    destruct (decide (path m = path m')) as [E2|]; [|by auto].
    destruct (decide (bindings m = bindings m')) as [E3|]; [|by auto].
    destruct (decide (Assign_Spec (assign m) = Assign_Spec (assign m')))
      as [E4|]; [|by auto].
    destruct Hn. by rewrite E1, E2, E3, E4.
  - intros [H|[H|[H|H]]] (?&?&?&?); congruence.
Qed.

Lemma HasDiff_other_kind m : HasDiff m OtherMutator = true.
Proof. reflexivity. Qed.

(** C9, as the code has it.  Construction computes the identity and
    parses the location, and nothing else: it fails whenever the location
    fails to parse or the identity cannot be computed, and otherwise
    returns the record, whatever [IsValidAssign] says of the declaration. *)
Theorem MutatorForAssign_parses_only a :
  (∀ e, parser_Parse (Spec_Location (Assign_Spec a)) = Err e →
        ∃ e', MutatorForAssign a = Err e')
  ∧ (∀ e, MakeID a = Err e →
          MutatorForAssign a =
            Err (errors_Wrap e "Failed to retrieve id for assign type"))
  ∧ (∀ i e, MakeID a = Ok i →
            parser_Parse (Spec_Location (Assign_Spec a)) = Err e →
            MutatorForAssign a =
              Err (errors_Wrap e "Failed to parse the location specified"))
  ∧ (∀ i p, MakeID a = Ok i →
            parser_Parse (Spec_Location (Assign_Spec a)) = Ok p →
            MutatorForAssign a =
              Ok {| id := i; assign := a;
                    bindings := applyToToBindings (Spec_ApplyTo (Assign_Spec a));
                    path := p |}).
Proof.
  unfold MutatorForAssign, Assign_DeepCopy.
  repeat split; intros; repeat case_match; try congruence; eauto.
Qed.

End Record.

(** ** The parser and the validator on concrete declarations *)

Example spec_Parse_fields :
  spec_Parse "metadata.labels.team"
  = Ok {| Nodes := Some [Object "metadata"; Object "labels"; Object "team"] |}.
Proof. vm_compute. reflexivity. Qed.

Example spec_Parse_keyed :
  spec_Parse ("spec.template[name: " +:+ quoted "nginx" +:+ "].image")
  = Ok {| Nodes := Some [Object "spec"; Object "template";
                          List "name" (Some "nginx") false; Object "image"] |}.
Proof. vm_compute. reflexivity. Qed.

Example spec_Parse_glob :
  spec_Parse "spec.containers[]"
  = Ok {| Nodes := Some [Object "spec"; Object "containers";
                          List EmptyString None true] |}.
Proof. vm_compute. reflexivity. Qed.

Example spec_Parse_empty : ∃ e, spec_Parse EmptyString = Err e.
Proof. eexists. reflexivity. Qed.

Example spec_Parse_bad_bracket : ∃ e, spec_Parse "spec[name" = Err e.
Proof. eexists. vm_compute. reflexivity. Qed.

Example IsValidAssign_nginx :
  IsValidAssign (ext := stub_externals)
    (mk_assign "spec.containers[name: nginx]" doc_object_nginx) = None.
Proof. vm_compute. reflexivity. Qed.

Example IsValidAssign_sidecar :
  IsValidAssign (ext := stub_externals)
    (mk_assign "spec.containers[name: nginx]" doc_object_sidecar)
  = Some (fmt_Errorf
      "adding object to list with different key %s: list key %s, object key %s"
      [VString "name"; VString "nginx"; VString "sidecar"]).
Proof. vm_compute. reflexivity. Qed.

Example IsValidAssign_no_value :
  IsValidAssign (ext := stub_externals) assign_no_value
  = Some (errors_New "spec.parameters.assign must have a value field").
Proof. vm_compute. reflexivity. Qed.

Example IsValidAssign_not_an_object :
  IsValidAssign (ext := stub_externals) (mk_assign "spec.replicas" doc_string)
  = Some (errors_Wrap json_UnmarshalTypeError
            "invalid format for parameters.assign").
Proof. vm_compute. reflexivity. Qed.

Example IsValidAssign_glob :
  IsValidAssign (ext := stub_externals)
    (mk_assign "spec.containers[]" doc_object_nginx)
  = Some (errors_New "can't append to a globbed list").
Proof. vm_compute. reflexivity. Qed.

Example IsValidAssign_scalar_in_list :
  IsValidAssign (ext := stub_externals)
    (mk_assign "spec.containers[name: nginx]" doc_scalar)
  = Some (errors_New "only full objects can be appended to lists").
Proof. vm_compute. reflexivity. Qed.

Lemma IsValidAssign_last_List_witness :
  IsValidAssign (ext := stub_externals) assign_nginx = None
  ∧ IsValidAssign (ext := stub_externals) assign_sidecar
    = Some (fmt_Errorf
        "adding object to list with different key %s: list key %s, object key %s"
        [VString "name"; VString "nginx"; VString "sidecar"]).
Proof.
  split.
  - refine (proj2 (proj2 (proj2 (proj2
      (IsValidAssign_last_List (ext := stub_externals) assign_nginx
         {| Nodes := Some [Object "spec"; Object "containers";
                           List "name" (Some "nginx") false] |}
         "name" (Some "nginx") false _ _))))
      {[ "value" := VObject {[ "name" := VString "nginx" ]} ]}
      {[ "name" := VString "nginx" ]} "nginx" _ _ _ _ _ _ _);
      vm_compute; reflexivity.
  - refine (proj2 (proj1 (proj2 (proj2 (proj2
      (IsValidAssign_last_List (ext := stub_externals) assign_sidecar
         {| Nodes := Some [Object "spec"; Object "containers";
                           List "name" (Some "nginx") false] |}
         "name" (Some "nginx") false _ _))))
      {[ "value" := VObject {[ "name" := VString "sidecar" ]} ]}
      {[ "name" := VString "sidecar" ]} "nginx" _ _ _ _) _ _ _);
      try (vm_compute; reflexivity).
    vm_compute. intros [=].
Defined.

Lemma IsValidAssign_key_not_changed_witness :
  is_Some (IsValidAssign (ext := stub_externals) assign_key_change).
Proof.
  refine (proj1 (proj1
    (IsValidAssign_key_not_changed (ext := stub_externals) assign_key_change
       {| Nodes := Some [Object "spec"; Object "containers";
                         List "name" (Some "nginx") false; Object "name"] |}
       (Object "name") (List "name" (Some "nginx") false) _ _ _ _)
    "name" (Some "nginx") false "name" _ _ _));
    try (vm_compute; reflexivity).
  vm_compute. lia.
Defined.

Lemma IsValidAssign_metadata_root_witness :
  IsValidAssign (ext := stub_externals) assign_metadata
  = Some (errors_New "assign can't change metadata").
Proof.
  apply (IsValidAssign_metadata_root (ext := stub_externals) assign_metadata
           {| Nodes := Some [Object "metadata"; Object "labels"; Object "team"] |});
    vm_compute; reflexivity.
Defined.

Lemma IsValidAssign_value_shape_witness :
  is_Some (IsValidAssign (ext := stub_externals) assign_no_value).
Proof.
  apply (proj1 (proj2 (proj2
    (IsValidAssign_value_shape (ext := stub_externals) assign_no_value))) ∅);
    vm_compute; reflexivity.
Defined.

Lemma IsValidAssign_empty_path_witness :
  IsValidAssign (ext := empty_path_externals) assign_image
  = Some (errors_New "empty path").
Proof.
  apply (proj1 (IsValidAssign_empty_path (ext := empty_path_externals)
                  assign_image {| Nodes := Some [] |} eq_refl eq_refl)).
Defined.

Lemma IsValidAssign_last_Object_witness :
  IsValidAssign (ext := stub_externals) assign_image = None.
Proof.
  apply (IsValidAssign_last_Object (ext := stub_externals) assign_image
           {| Nodes := Some [Object "spec"; Object "containers";
                             List "name" (Some "nginx") false; Object "image"] |}
           "image" {[ "value" := VString "nginx:1.21" ]} (VString "nginx:1.21"));
    vm_compute; reflexivity.
Defined.

(** ** The record on concrete inputs *)

Lemma AssignMutator_Matches_fail_closed_witness :
  AssignMutator_Matches (ext := stub_externals) mutator_failing_match tt tt
  = (false, [ {| log_err := errors_New "namespace selector: invalid label";
                 log_msg := "AssignMutator.Matches failed";
                 log_keysAndValues := [("assign", "demo")] |} ]).
Proof.
  apply (AssignMutator_Matches_fail_closed (ext := stub_externals)
           mutator_failing_match tt tt true). reflexivity.
Defined.

Lemma MutatorForAssign_parses_only_witness :
  ∃ m, MutatorForAssign (ext := stub_externals) assign_metadata = Ok m
       ∧ path m = {| Nodes := Some [Object "metadata"; Object "labels";
                                    Object "team"] |}.
Proof.
  eexists. split.
  - apply (proj2 (proj2 (proj2
      (MutatorForAssign_parses_only (ext := stub_externals) assign_metadata))));
      vm_compute; reflexivity.
  - reflexivity.
Defined.

(** C9, as the claim states it, fails: the declaration at
    [metadata.labels.team] breaks the first validation rule, and
    construction returns a record for it. *)
Lemma MutatorForAssign_does_not_validate :
  ¬ (∀ a : Assign (option bool),
       is_Some (IsValidAssign (ext := stub_externals) a) →
       ∃ e, MutatorForAssign (ext := stub_externals) a = Err e).
Proof.
  intros Hclaim.
  destruct (Hclaim assign_metadata) as [e He].
  - exists (errors_New "assign can't change metadata").
    vm_compute. reflexivity.
  - vm_compute in He. discriminate He.
Qed.

(** ** [applyToToBindings] copies the applyTo entries element by element *)

Lemma fill_from (l : list string) :
  ∀ (k : nat) (pre junk : list string),
    length pre = k → length junk = length l →
    foldl (λ dst ig, <[ig.1 := ig.2]> dst) (pre ++ junk)
          (imap (λ i x, (k + i, x)) l) = pre ++ l.
Proof.
  induction l as [|x l IH]; intros k pre junk Hk Hj.
  - destruct junk; [reflexivity|discriminate].
  - destruct junk as [|j junk]; [discriminate|]. simpl.
    rewrite insert_app_r_alt by lia.
    replace (k + 0 - length pre) with 0 by lia. simpl.
    rewrite (cons_middle x pre junk), app_assoc.
    rewrite (imap_ext _ (λ i y, (S k + i, y))) by (intros; simpl; f_equal; lia).
    rewrite (IH (S k) (pre ++ [x]) junk).
    + by rewrite <- app_assoc.
    + rewrite length_app. simpl. lia.
    + simpl in Hj. lia.
Qed.

Lemma make_and_fill_elems (src : slice string) :
  make_and_fill src = Some (elems src).
Proof.
  unfold make_and_fill. f_equal.
  apply (fill_from (elems src) 0 [] (replicate (len src) EmptyString)).
  - reflexivity.
  - rewrite length_replicate. by destruct src.
Qed.

Lemma foldl_snoc {A B} (f : A → B) (l : list A) (acc : list B) :
  foldl (λ res x, res ++ [f x]) acc l = acc ++ (f <$> l).
Proof.
  revert acc. induction l as [|x l IH]; intros acc; simpl.
  - by rewrite app_nil_r.
  - rewrite IH, <- app_assoc. reflexivity.
Qed.

Lemma applyToToBindings_elems (applyTos : slice ApplyTo) :
  applyToToBindings applyTos =
    Some ((λ applyTo, {| Groups := Some (elems (ApplyTo_Groups applyTo));
                         Kinds := Some (elems (ApplyTo_Kinds applyTo));
                         Versions := Some (elems (ApplyTo_Versions applyTo)) |})
            <$> elems applyTos).
Proof.
  unfold applyToToBindings. f_equal.
  rewrite (foldl_snoc (λ applyTo,
    {| Groups := make_and_fill (ApplyTo_Groups applyTo);
       Kinds := make_and_fill (ApplyTo_Kinds applyTo);
       Versions := make_and_fill (ApplyTo_Versions applyTo) |})).
  simpl. apply list_fmap_ext. intros i x _.
  by rewrite !make_and_fill_elems.
Qed.

(** ** [DeepCopy] on the store *)

Section StoreProps.
Context {Match : Type} `{!EqDecision Match}.
Implicit Types (h ext : list (cell Match)) (m : AssignMutatorRef).

Lemma copy_elems_same_length {A} (dst src : list A) :
  length dst = length src → copy_elems dst src = src.
Proof.
  intros H. unfold copy_elems.
  rewrite H, take_ge, drop_ge, app_nil_r by lia. reflexivity.
Qed.

Lemma load_app h ext l c :
  h !! l = Some c → load l (h ++ ext) = Some (c, h ++ ext).
Proof. intros H. unfold load. by rewrite (lookup_app_l_Some _ _ _ _ H). Qed.

Lemma load_fresh h ext k c :
  ext !! k = Some c → load (length h + k) (h ++ ext) = Some (c, h ++ ext).
Proof.
  intros H. unfold load. rewrite lookup_app_r by lia.
  replace (length h + k - length h) with k by lia. by rewrite H.
Qed.

Lemma store_at_fresh h ext k c :
  k < length ext →
  store_at (length h + k) c (h ++ ext) = Some (tt, h ++ <[k := c]> ext).
Proof.
  intros H. unfold store_at. rewrite length_app.
  case_decide; [|lia]. rewrite insert_app_r. reflexivity.
Qed.

Lemma AssignMutator_DeepCopy_result h m a arr ns barr bs :
  h !! ref_assign m = Some (CAssign a) →
  h !! ref_path m = Some (CPath (Some arr)) →
  h !! arr = Some (CNodes ns) →
  ref_bindings m = Some barr →
  h !! barr = Some (CBindings bs) →
  AssignMutator_DeepCopy m h =
    Some ({| ref_id := ref_id m;
             ref_assign := length h;
             ref_path := length h + 2;
             ref_bindings := Some (length h + 3) |},
          h ++ [CAssign a; CNodes ns; CPath (Some (length h + 1));
                CBindings bs]).
Proof.
  intros Ha Hp Hn Hb Hbs.
  unfold AssignMutator_DeepCopy, Assign_DeepCopy_at, path_Nodes_at, len_at,
    copy_Nodes, copy_Bindings, bind, ret, alloc, Assign_DeepCopy.
  rewrite Hb.
  unfold load at 1. rewrite Ha.
  rewrite (load_app _ _ _ _ Hp), (load_app _ _ _ _ Hn).
  rewrite <- !app_assoc. simpl.
  rewrite (load_app _ _ _ _ Hbs).
  rewrite <- !app_assoc. simpl.
  rewrite !length_app. simpl length.
  erewrite (load_fresh h _ 1) by reflexivity. rewrite (load_app _ _ _ _ Hn).
  rewrite store_at_fresh by (simpl; lia). simpl.
  erewrite (load_fresh h _ 3) by reflexivity. rewrite (load_app _ _ _ _ Hbs).
  rewrite store_at_fresh by (simpl; lia). simpl.
  rewrite !copy_elems_same_length by (by rewrite length_replicate).
  reflexivity.
Qed.

Lemma lookup_fresh h ext k : (h ++ ext) !! (length h + k) = ext !! k.
Proof. rewrite lookup_app_r by lia. f_equal. lia. Qed.

(** Reads are stable when the store grows. *)
Lemma mapM_impl {A B} (f g : A → option B) l k :
  (∀ x y, f x = Some y → g x = Some y) →
  mapM f l = Some k → mapM g l = Some k.
Proof.
  intros Hfg. rewrite !mapM_Some. intros H.
  eapply Forall2_impl; [exact H | exact Hfg].
Qed.

Lemma read_strings_app h ext s v :
  read_strings h s = Some v → read_strings (h ++ ext) s = Some v.
Proof.
  unfold read_strings. destruct s as [l|]; [|done].
  destruct (h !! l) as [c|] eqn:E; [|done].
  by rewrite (lookup_app_l_Some _ _ _ _ E).
Qed.

Lemma read_binding_app h ext b v :
  read_binding h b = Some v → read_binding (h ++ ext) b = Some v.
Proof.
  unfold read_binding. intros H.
  destruct (read_strings h (cell_Groups b)) as [g|] eqn:E1; [|done].
  destruct (read_strings h (cell_Kinds b)) as [k|] eqn:E2; [|done].
  destruct (read_strings h (cell_Versions b)) as [w|] eqn:E3; [|done].
  by rewrite (read_strings_app _ ext _ _ E1), (read_strings_app _ ext _ _ E2),
    (read_strings_app _ ext _ _ E3).
Qed.

Lemma read_node_app h ext n v :
  read_node h n = Some v → read_node (h ++ ext) n = Some v.
Proof.
  unfold read_node. destruct n as [l|]; [|done].
  destruct (h !! l) as [c|] eqn:E; [|done].
  by rewrite (lookup_app_l_Some _ _ _ _ E).
Qed.

Lemma read_bindings_app h ext s v :
  read_bindings h s = Some v → read_bindings (h ++ ext) s = Some v.
Proof.
  unfold read_bindings. destruct s as [l|]; [|done].
  destruct (h !! l) as [[]|] eqn:E; try done.
  rewrite (lookup_app_l_Some _ _ _ _ E).
  destruct (mapM (read_binding h) arr) as [bs|] eqn:Em; [|done].
  intros [= <-].
  by rewrite (mapM_impl _ (read_binding (h ++ ext)) _ _
                (read_binding_app h ext) Em).
Qed.

Lemma read_path_app h ext l v :
  read_path h l = Some v → read_path (h ++ ext) l = Some v.
Proof.
  unfold read_path.
  destruct (h !! l) as [[| [arr|] | | | |]|] eqn:E; try done;
    rewrite (lookup_app_l_Some _ _ _ _ E); [|done].
  destruct (h !! arr) as [[]|] eqn:Ea; try done.
  rewrite (lookup_app_l_Some _ _ _ _ Ea).
  destruct (mapM (read_node h) arr0) as [ns|] eqn:Em; [|done].
  intros [= <-].
  by rewrite (mapM_impl _ (read_node (h ++ ext)) _ _
                (read_node_app h ext) Em).
Qed.

Lemma read_assign_app h ext l v :
  read_assign h l = Some v → read_assign (h ++ ext) l = Some v.
Proof.
  unfold read_assign. destruct (h !! l) as [c|] eqn:E; [|done].
  by rewrite (lookup_app_l_Some _ _ _ _ E).
Qed.

Lemma read_mutator_app h ext m v :
  read_mutator h m = Some v → read_mutator (h ++ ext) m = Some v.
Proof.
  unfold read_mutator. intros H.
  destruct (read_assign h (ref_assign m)) as [a|] eqn:E1; [|done].
  destruct (read_path h (ref_path m)) as [p|] eqn:E2; [|done].
  destruct (read_bindings h (ref_bindings m)) as [b|] eqn:E3; [|done].
  by rewrite (read_assign_app _ ext _ _ E1), (read_path_app _ ext _ _ E2),
    (read_bindings_app _ ext _ _ E3).
Qed.

(** A record that reads as a value, with non-nil [Nodes] and
    [bindings], sits in the store as follows. *)
Lemma read_mutator_layout h m v :
  read_mutator h m = Some v →
  Nodes (path v) ≠ None → bindings v ≠ None →
  ∃ arr ns barr bs,
    h !! ref_assign m = Some (CAssign (assign v))
    ∧ h !! ref_path m = Some (CPath (Some arr))
    ∧ h !! arr = Some (CNodes ns)
    ∧ mapM (read_node h) ns = Nodes (path v)
    ∧ ref_bindings m = Some barr
    ∧ h !! barr = Some (CBindings bs)
    ∧ mapM (read_binding h) bs = bindings v
    ∧ id v = ref_id m.
Proof.
  unfold read_mutator. intros H Hn Hb.
  destruct (read_assign h (ref_assign m)) as [a|] eqn:E1; [|done].
  destruct (read_path h (ref_path m)) as [p|] eqn:E2; [|done].
  destruct (read_bindings h (ref_bindings m)) as [b|] eqn:E3; [|done].
  injection H as <-. simpl in *.
  unfold read_assign in E1.
  destruct (h !! ref_assign m) as [[]|]; try done. injection E1 as ->.
  unfold read_path in E2.
  destruct (h !! ref_path m) as [[| [arr|] | | | |]|]; try done;
    [|injection E2 as <-; by destruct Hn].
  destruct (h !! arr) as [[| |ns| | |]|] eqn:Ea; try done.
  destruct (mapM (read_node h) ns) as [l|] eqn:Em; [|done].
  injection E2 as <-. simpl in *.
  unfold read_bindings in E3.
  destruct (ref_bindings m) as [barr|];
    [|injection E3 as <-; by destruct Hb].
  destruct (h !! barr) as [[| | | |bs|]|] eqn:Eb; try done.
  destruct (mapM (read_binding h) bs) as [k|] eqn:Ek; [|done].
  injection E3 as <-.
  exists arr, ns, barr, bs. by rewrite Em, Ek.
Qed.

(** C8, the part that holds.  On a record whose [Nodes] and [bindings]
    are not nil, [DeepCopy] returns, and the copy reads as the same
    value as the original: [HasDiff] is false between them. *)
Theorem AssignMutator_DeepCopy_equal_by_value h m v :
  read_mutator h m = Some v →
  Nodes (path v) ≠ None → bindings v ≠ None →
  ∃ m' h',
    AssignMutator_DeepCopy m h = Some (m', h')
    ∧ read_mutator h' m = Some v
    ∧ read_mutator h' m' = Some v
    ∧ HasDiff v (IsAssignMutator v) = false.
Proof.
  intros Hv Hn Hb.
  destruct (read_mutator_layout h m v Hv Hn Hb)
    as (arr & ns & barr & bs & Ha & Hp & Harr & Hns & Hbarr & Hbs & Hbv & Hid).
  eexists _, _. split;
    [exact (AssignMutator_DeepCopy_result h m _ arr ns barr bs
              Ha Hp Harr Hbarr Hbs)|].
  split; [by apply read_mutator_app|].
  split; [|by apply HasDiff_false_iff].
  unfold read_mutator, read_assign, read_path, read_bindings. simpl.
  rewrite <- (Nat.add_0_r (length h)) at 1.
  repeat (rewrite lookup_fresh; simpl).
  destruct (mapM (read_node h) ns) as [l|] eqn:Em; [|by rewrite <- Hns in Hn].
  destruct (mapM (read_binding h) bs) as [k|] eqn:Ek; [|by rewrite <- Hbv in Hb].
  rewrite (mapM_impl _ (read_node (h ++ _)) _ _ (read_node_app h _) Em).
  rewrite (mapM_impl _ (read_binding (h ++ _)) _ _ (read_binding_app h _) Ek).
  simpl. destruct v as [vi va [vn] vb]. simpl in *. congruence.
Qed.

(** C8, the part that fails, in general.  The copy has backing arrays
    of its own, but they hold the node pointers and the slice headers of
    the original: the nodes and the string arrays are shared. *)
Theorem AssignMutator_DeepCopy_shallow h m v :
  read_mutator h m = Some v →
  Nodes (path v) ≠ None → bindings v ≠ None →
  ∃ m' h' arr arr' ns barr barr' bs,
    AssignMutator_DeepCopy m h = Some (m', h')
    ∧ h' !! ref_path m = Some (CPath (Some arr))
    ∧ h' !! ref_path m' = Some (CPath (Some arr'))
    ∧ arr ≠ arr'
    ∧ h' !! arr = Some (CNodes ns) ∧ h' !! arr' = Some (CNodes ns)
    ∧ ref_bindings m = Some barr ∧ ref_bindings m' = Some barr'
    ∧ barr ≠ barr'
    ∧ h' !! barr = Some (CBindings bs) ∧ h' !! barr' = Some (CBindings bs).
Proof.
  intros Hv Hn Hb.
  destruct (read_mutator_layout h m v Hv Hn Hb)
    as (arr & ns & barr & bs & Ha & Hp & Harr & Hns & Hbarr & Hbs & Hbv & Hid).
  pose proof (lookup_lt_Some _ _ _ Harr).
  pose proof (lookup_lt_Some _ _ _ Hbs).
  eexists _, _, arr, (length h + 1), ns, barr, (length h + 3), bs.
  split;
    [exact (AssignMutator_DeepCopy_result h m _ arr ns barr bs
              Ha Hp Harr Hbarr Hbs)|]. simpl.
  rewrite !lookup_fresh. simpl.
  rewrite (lookup_app_l_Some _ _ _ _ Hp), (lookup_app_l_Some _ _ _ _ Harr),
    (lookup_app_l_Some _ _ _ _ Hbs).
  repeat split; try done; lia.
Qed.
End StoreProps.

(** C8 on the record [mutator0] of [store0].  The copy reads as the same
    value as the original, so [HasDiff] is false between them; but the
    nodes at 1 and 2 and the string arrays at 5, 6 and 7 are reachable
    from both.  Renaming the first node through the copy changes the path
    of the original, and writing a group through the copy changes the
    bindings of the original. *)
Theorem AssignMutator_DeepCopy_shares_nodes_and_strings :
  ∃ copy h1 v,
    AssignMutator_DeepCopy mutator0 store0 = Some (copy, h1)
    ∧ read_mutator h1 mutator0 = Some v
    ∧ read_mutator h1 copy = Some v
    ∧ HasDiff v (IsAssignMutator v) = false
    ∧ path v = {| Nodes := Some [Object "spec"; Object "containers"] |}
    ∧ bindings v = Some [ {| Groups := Some ["apps"];
                             Kinds := Some ["Deployment"];
                             Versions := Some ["v1"] |} ]
    ∧ filter (λ l, l ∈ reachable h1 mutator0) (reachable h1 copy)
      = [1; 2; 5; 6; 7]
    ∧ (∃ h2, set_node_Reference copy 0 "metadata" h1 = Some (tt, h2)
             ∧ path <$> read_mutator h2 mutator0
               = Some {| Nodes := Some [Object "metadata";
                                        Object "containers"] |})
    ∧ (∃ h3, set_binding_Group copy 0 0 "batch" h1 = Some (tt, h3)
             ∧ bindings <$> read_mutator h3 mutator0
               = Some (Some [ {| Groups := Some ["batch"];
                                 Kinds := Some ["Deployment"];
                                 Versions := Some ["v1"] |} ])).
Proof.
  eexists _, _, _.
  split; [vm_compute; reflexivity|].
  split; [vm_compute; reflexivity|].
  split; [vm_compute; reflexivity|].
  split; [vm_compute; reflexivity|].
  split; [reflexivity|].
  split; [reflexivity|].
  split; [vm_compute; reflexivity|].
  split; eexists; (split; [vm_compute; reflexivity|]); vm_compute; reflexivity.
Qed.

(** Hence writes to the cells reachable from a copy are not all
    invisible to the original. *)
Lemma AssignMutator_DeepCopy_not_independent :
  ¬ (∀ (h h' : store (option bool)) (m m' : AssignMutatorRef),
       AssignMutator_DeepCopy m h = Some (m', h') →
       ∀ (l : loc) (c : cell (option bool)),
         l ∈ reachable h' m' →
         read_mutator (<[l := c]> h') m = read_mutator h' m).
Proof.
  intros Hindep.
  destruct (AssignMutator_DeepCopy mutator0 store0) as [[copy h1]|] eqn:Hc;
    [|vm_compute in Hc; discriminate Hc].
  specialize (Hindep store0 h1 mutator0 copy Hc 1 (CNode (Object "metadata"))).
  vm_compute in Hc. injection Hc as <- <-.
  assert (Hin : 1 ∈ reachable
                  (store0 ++ [CAssign (mk_assign "spec.containers" doc_scalar);
                              CNodes [Some 1; Some 2]; CPath (Some 10);
                              CBindings [ {| cell_Groups := Some 5;
                                             cell_Kinds := Some 6;
                                             cell_Versions := Some 7 |} ]])
                  {| ref_id := ref_id mutator0; ref_assign := 9;
                     ref_path := 11; ref_bindings := Some 12 |}).
  { apply (bool_decide_unpack _). vm_compute. exact I. }
  specialize (Hindep Hin). vm_compute in Hindep. discriminate Hindep.
Qed.

(** The general statements at the same record. *)
Lemma AssignMutator_DeepCopy_equal_by_value_witness :
  ∃ m' h' v,
    AssignMutator_DeepCopy mutator0 store0 = Some (m', h')
    ∧ read_mutator h' m' = Some v
    ∧ path v = {| Nodes := Some [Object "spec"; Object "containers"] |}.
Proof.
  destruct (AssignMutator_DeepCopy_equal_by_value store0 mutator0
              (default mutator_failing_match (read_mutator store0 mutator0)))
    as (m' & h' & Hc & _ & Hr & _);
    [vm_compute; reflexivity | vm_compute; discriminate
    | vm_compute; discriminate |].
  exists m', h'. eexists. split; [exact Hc|]. split; [exact Hr|].
  vm_compute. reflexivity.
Defined.

Lemma AssignMutator_DeepCopy_shallow_witness :
  ∃ m' h' arr arr' ns,
    AssignMutator_DeepCopy mutator0 store0 = Some (m', h')
    ∧ arr ≠ arr'
    ∧ h' !! arr = Some (CNodes ns) ∧ h' !! arr' = Some (CNodes ns).
Proof.
  destruct (AssignMutator_DeepCopy_shallow store0 mutator0
              (default mutator_failing_match (read_mutator store0 mutator0)))
    as (m' & h' & arr & arr' & ns & _ & _ & _ & Hc & _ & _ & Hne & H1 & H2 & _);
    [vm_compute; reflexivity | vm_compute; discriminate
    | vm_compute; discriminate |].
  exists m', h', arr, arr', ns. auto.
Defined.

(** * Further properties of the validator *)

(** ** Paths by their first and last nodes *)

Lemma snoc2_lookups {A} (pre : list A) (s l : A) :
  (pre ++ [s; l]) !! (length (pre ++ [s; l]) - 1) = Some l
  ∧ (pre ++ [s; l]) !! (length (pre ++ [s; l]) - 2) = Some s.
Proof.
  rewrite length_app. simpl. split.
  - rewrite lookup_app_r by lia.
    replace (length pre + 2 - 1 - length pre) with 1 by lia. reflexivity.
  - rewrite lookup_app_r by lia.
    replace (length pre + 2 - 2 - length pre) with 0 by lia. reflexivity.
Qed.

Lemma snoc2_split {A} (xs : list A) :
  (2 ≤ length xs)%nat → ∃ pre s l, xs = pre ++ [s; l].
Proof.
  induction xs as [|x xs IH] using rev_ind; simpl; [lia|].
  rewrite length_app. simpl. intros Hlen.
  destruct xs as [|y ys _] using rev_ind; [simpl in Hlen; lia|].
  exists ys, y, x. by rewrite <- app_assoc.
Qed.

Lemma checkKeyNotChanged_snoc2 (pre : list Node) (s l : Node) :
  checkKeyNotChanged {| Nodes := Some (pre ++ [s; l]) |} =
    match s, l with
    | Object _, _ => None
    | List _ _ _, List _ _ _ =>
        Some (errors_New "invalid path format: child of a list can't be a list")
    | List kf _ _, Object r =>
        if String.eqb r kf then
          Some (errors_New
            "invalid path format: changing the item key is not allowed")
        else None
    end.
Proof.
  destruct (snoc2_lookups pre s l) as [Hl Hs].
  apply checkKeyNotChanged_last_two; simpl; try done.
  rewrite length_app. simpl. lia.
Qed.

Lemma checkKeyNotChanged_short (nodes : slice Node) :
  len nodes < 2 →
  checkKeyNotChanged {| Nodes := nodes |} =
    if decide (len nodes = 0) then Some (errors_New "empty path") else None.
Proof.
  intros Hlen. unfold checkKeyNotChanged. simpl.
  destruct (decide (len nodes = 0)); [reflexivity|].
  destruct (decide (len nodes < 2)); [reflexivity|lia].
Qed.

(** The key check looks at the last two nodes only: what precedes them
    does not change its answer, so a key renamed anywhere but at the end
    of the path goes unnoticed. *)
Theorem checkKeyNotChanged_last_two_only (pre : list Node) (s l : Node) :
  checkKeyNotChanged {| Nodes := Some (pre ++ [s; l]) |}
  = checkKeyNotChanged {| Nodes := Some [s; l] |}
  ∧ ∀ kf kv g r,
      checkKeyNotChanged
        {| Nodes := Some (pre ++ [List kf kv g; Object kf; Object r]) |} = None.
Proof.
  split.
  - rewrite (checkKeyNotChanged_snoc2 pre).
    symmetry. apply (checkKeyNotChanged_snoc2 []).
  - intros kf kv g r.
    replace (pre ++ [List kf kv g; Object kf; Object r])
      with ((pre ++ [List kf kv g]) ++ [Object kf; Object r])
      by (by rewrite <- app_assoc).
    by rewrite checkKeyNotChanged_snoc2.
Qed.

Lemma elems_snoc2_Some (nodes : slice Node) pre s l :
  elems nodes = pre ++ [s; l] → nodes = Some (pre ++ [s; l]).
Proof.
  destruct nodes as [xs|]; simpl; [congruence|].
  intros H. by destruct pre.
Qed.

Lemma snoc2_inj {A} (pre pre' : list A) (s l s' l' : A) :
  pre ++ [s; l] = pre' ++ [s'; l'] → s = s' ∧ l = l'.
Proof.
  intros H. apply app_inj_2 in H as [_ H]; [|reflexivity].
  by injection H.
Qed.

(** The key check passes exactly on the non-empty paths whose last node,
    when it follows a List node, is an Object node that does not name the
    key field of that List node. *)
Lemma checkKeyNotChanged_None_iff (p : Path) :
  checkKeyNotChanged p = None ↔
  elems (Nodes p) ≠ []
  ∧ ∀ pre kf kv g l,
      elems (Nodes p) = pre ++ [List kf kv g; l] →
      ∃ r, l = Object r ∧ r ≠ kf.
Proof.
  destruct p as [nodes].
  destruct (decide (len nodes < 2)) as [Hshort|Hlong].
  - rewrite (checkKeyNotChanged_short nodes Hshort). simpl.
    destruct nodes as [[|x [|y xs]]|]; simpl in *; try lia.
    + split; [discriminate|]. by intros [? _].
    + split; [|done]. intros _. split; [done|].
      intros pre kf kv g l H. apply (f_equal length) in H.
      rewrite length_app in H. simpl in H. lia.
    + split; [discriminate|]. by intros [? _].
  - destruct (snoc2_split (elems nodes)) as (pre & s & l & Hsplit).
    { unfold len in Hlong. destruct nodes; simpl in *; lia. }
    rewrite (elems_snoc2_Some _ _ _ _ Hsplit). simpl.
    rewrite checkKeyNotChanged_snoc2. split.
    + intros Hnone. split; [by destruct pre|].
      intros pre' kf kv g l' Heq.
      apply snoc2_inj in Heq as [-> ->].
      destruct l' as [r|]; [|discriminate]. exists r. split; [done|].
      intros ->. by rewrite String.eqb_refl in Hnone.
    + intros [_ Hkey]. destruct s as [|kf kv g]; [reflexivity|].
      destruct (Hkey pre kf kv g l eq_refl) as (r & -> & Hne).
      apply String.eqb_neq in Hne. by rewrite Hne.
Qed.

(** The key check has three errors and no other: "empty path" on a path
    without nodes, one for a List node under a List node, one for an
    Object node naming the key field of the List node before it. *)
Theorem checkKeyNotChanged_errors (p : Path) (e : error) :
  checkKeyNotChanged p = Some e ↔
  (elems (Nodes p) = [] ∧ e = errors_New "empty path")
  ∨ (∃ pre kf kv g kf' kv' g',
       elems (Nodes p) = pre ++ [List kf kv g; List kf' kv' g']
       ∧ e = errors_New "invalid path format: child of a list can't be a list")
  ∨ (∃ pre kf kv g,
       elems (Nodes p) = pre ++ [List kf kv g; Object kf]
       ∧ e = errors_New
               "invalid path format: changing the item key is not allowed").
Proof.
  destruct p as [nodes].
  destruct (decide (len nodes < 2)) as [Hshort|Hlong].
  - rewrite (checkKeyNotChanged_short nodes Hshort). simpl.
    assert (Hno : ∀ (pre : list Node) s l, elems nodes ≠ pre ++ [s; l]).
    { intros pre s l H. apply (f_equal length) in H.
      rewrite length_app in H. simpl in H.
      unfold len in Hshort. destruct nodes; simpl in *; lia. }
    split.
    + case_decide as Hz; [|discriminate]. intros [= <-]. left.
      split; [|done]. destruct nodes as [[|]|]; simpl in *; done.
    + intros [[Hnil ->]|[(pre&?&?&?&?&?&?&H&_)|(pre&?&?&?&H&_)]];
        [|by apply Hno in H..].
      case_decide as Hz; [done|].
      destruct nodes as [[|]|]; simpl in *; done.
  - destruct (snoc2_split (elems nodes)) as (pre & s & l & Hsplit).
    { unfold len in Hlong. destruct nodes; simpl in *; lia. }
    rewrite (elems_snoc2_Some _ _ _ _ Hsplit). simpl.
    rewrite checkKeyNotChanged_snoc2. split.
    + destruct s as [|kf kv g]; [discriminate|].
      destruct l as [r|kf' kv' g'].
      * destruct (String.eqb r kf) eqn:E; [|discriminate].
        apply String.eqb_eq in E as ->. intros [= <-].
        right; right. by exists pre, kf, kv, g.
      * intros [= <-]. right; left. by exists pre, kf, kv, g, kf', kv', g'.
    + intros [[Hnil _]|[(pre'&?&?&?&?&?&?&H&->)|(pre'&?&?&?&H&->)]].
      * by destruct pre.
      * apply snoc2_inj in H as [-> ->]. reflexivity.
      * apply snoc2_inj in H as [-> ->]. by rewrite String.eqb_refl.
Qed.

Lemma map_index_VString (m : gmap string Value) (kf k : string) :
  map_index m kf = VString k ↔ m !! kf = Some (VString k).
Proof.
  unfold map_index. destruct (m !! kf) as [v|]; simpl.
  - split; congruence.
  - split; discriminate.
Qed.

Lemma validateObjectAssignedToList_empty (p : Path) (value : Value) :
  elems (Nodes p) = [] →
  validateObjectAssignedToList p value = Some (errors_New "empty path").
Proof.
  intros Hnil. unfold validateObjectAssignedToList.
  destruct (decide (len (Nodes p) = 0)) as [|Hne]; [reflexivity|].
  destruct Hne. unfold len. destruct (Nodes p); simpl in *; by subst.
Qed.

(** The list check passes exactly when the path has a last node and that
    node is an Object node, or is a List node that is not globbed, has a
    keyValue, and the value is an object whose key field holds that very
    string. *)
Lemma validateObjectAssignedToList_None_iff (p : Path) (value : Value) :
  validateObjectAssignedToList p value = None ↔
  ∃ lastNode,
    last (elems (Nodes p)) = Some lastNode
    ∧ ∀ kf kv g,
        lastNode = List kf kv g →
        g = false
        ∧ ∃ k m, kv = Some k ∧ value = VObject m
                 ∧ m !! kf = Some (VString k).
Proof.
  destruct (last (elems (Nodes p))) as [[r|kf kv g]|] eqn:Hlast.
  - rewrite (validateObjectAssignedToList_Object p r value Hlast).
    split; [|done]. intros _. exists (Object r). split; [done|]. discriminate.
  - rewrite (validateObjectAssignedToList_List p kf kv g value Hlast). split.
    + intros Hnone. exists (List kf kv g). split; [done|].
      intros ? ? ? [= <- <- <-].
      destruct g; [discriminate|]. split; [done|].
      destruct kv as [k|]; [|discriminate].
      destruct value as [| | | | |m]; try discriminate.
      destruct (string_eq_interface k (map_index m kf)) eqn:E;
        [|discriminate].
      apply string_eq_interface_true, map_index_VString in E. eauto.
    + intros (n & [= <-] & Hn).
      destruct (Hn kf kv g eq_refl) as (-> & k & m & -> & -> & Hm).
      apply map_index_VString, string_eq_interface_true in Hm.
      by rewrite Hm.
  - apply last_None in Hlast.
    rewrite (validateObjectAssignedToList_empty p value Hlast).
    split; [discriminate|]. by intros (n & ? & _).
Qed.

(** The list check looks at the last node only, and reports the first of
    its four errors that applies: globbed, no keyValue, value not an
    object, key field different from keyValue. *)
Theorem validateObjectAssignedToList_last_only (pre : list Node) (l : Node)
    (value : Value) :
  validateObjectAssignedToList {| Nodes := Some (pre ++ [l]) |} value
  = validateObjectAssignedToList {| Nodes := Some [l] |} value
  ∧ (∀ kf kv, l = List kf kv true →
       validateObjectAssignedToList {| Nodes := Some (pre ++ [l]) |} value
       = Some (errors_New "can't append to a globbed list"))
  ∧ (∀ kf, l = List kf None false →
       validateObjectAssignedToList {| Nodes := Some (pre ++ [l]) |} value
       = Some (errors_New "invalid key value for a non globbed object"))
  ∧ (∀ kf k, l = List kf (Some k) false → (∀ m, value ≠ VObject m) →
       validateObjectAssignedToList {| Nodes := Some (pre ++ [l]) |} value
       = Some (errors_New "only full objects can be appended to lists")).
Proof.
  assert (Hlast : last (elems (Nodes {| Nodes := Some (pre ++ [l]) |})) = Some l)
    by apply last_snoc.
  assert (Hlast1 : last (elems (Nodes {| Nodes := Some [l] |})) = Some l)
    by reflexivity.
  repeat split.
  - destruct l as [r|kf kv g].
    + by rewrite (validateObjectAssignedToList_Object _ r value Hlast),
        (validateObjectAssignedToList_Object _ r value Hlast1).
    + by rewrite (validateObjectAssignedToList_List _ kf kv g value Hlast),
        (validateObjectAssignedToList_List _ kf kv g value Hlast1).
  - intros kf kv ->.
    by rewrite (validateObjectAssignedToList_List _ kf kv true value Hlast).
  - intros kf ->.
    by rewrite (validateObjectAssignedToList_List _ kf None false value Hlast).
  - intros kf k -> Hnot.
    rewrite (validateObjectAssignedToList_List _ kf (Some k) false value Hlast).
    destruct value; try reflexivity. by destruct (Hnot m).
Qed.

(** Only a first node that is exactly the Object node "metadata" makes a
    metadata root: a List node first, another field name, or "metadata"
    further down the path do not. *)
Theorem hasMetadataRoot_iff_head (p : Path) :
  (hasMetadataRoot p = true ↔ head (elems (Nodes p)) = Some (Object "metadata"))
  ∧ (∀ n rest, elems (Nodes p) = n :: rest → n ≠ Object "metadata" →
               hasMetadataRoot p = false).
Proof.
  assert (Hiff : hasMetadataRoot p = true
                 ↔ head (elems (Nodes p)) = Some (Object "metadata")).
  { rewrite hasMetadataRoot_true. unfold index. by rewrite head_lookup. }
  split; [exact Hiff|].
  intros n rest Hel Hne. apply not_true_is_false. rewrite Hiff, Hel. simpl.
  congruence.
Qed.

(** ** The validator as a whole *)

Section ValidationMore.
Context {Match RuntimeObject Namespace : Type} `{!EqDecision Match}
        {ext : Externals Match RuntimeObject Namespace}.
Implicit Types (a b : Assign Match) (p : Path).

Local Abbreviation location a := (Spec_Location (Assign_Spec a)).
Local Abbreviation raw a := (Spec_Parameters_Assign_Raw (Assign_Spec a)).

(** A declaration is accepted exactly when its location parses to a
    non-empty path that does not start at "metadata", whose last node does
    not rename the key of a List node before it and is not a List node
    under a List node, whose payload is an object with a field [value],
    and, when the last node is a List node, that node is keyed and
    [value] is an object carrying the same key. *)
Theorem IsValidAssign_None_iff a :
  IsValidAssign a = None ↔
  ∃ p toAssign value lastNode,
    parser_Parse (location a) = Ok p
    ∧ head (elems (Nodes p)) ≠ Some (Object "metadata")
    ∧ last (elems (Nodes p)) = Some lastNode
    ∧ (∀ pre kf kv g l,
         elems (Nodes p) = pre ++ [List kf kv g; l] →
         ∃ r, l = Object r ∧ r ≠ kf)
    ∧ json_Unmarshal_map (raw a) = Ok toAssign
    ∧ toAssign !! "value" = Some value
    ∧ (∀ kf kv g,
         lastNode = List kf kv g →
         g = false
         ∧ ∃ k m, kv = Some k ∧ value = VObject m
                  ∧ m !! kf = Some (VString k)).
Proof.
  split.
  - intros Hacc.
    destruct (parser_Parse (location a)) as [p|e] eqn:Hp;
      [|unfold IsValidAssign in Hacc; by rewrite Hp in Hacc].
    destruct (IsValidAssign_accepts_inv a p Hp Hacc)
      as (Hm & Hk & toAssign & value & Hj & Hv & Hl).
    apply validateObjectAssignedToList_None_iff in Hl as (lastNode & Hlast & Hlist).
    apply checkKeyNotChanged_None_iff in Hk as [_ Hkey].
    exists p, toAssign, value, lastNode. split_and!; try done.
    intros Hhead. rewrite head_lookup in Hhead.
    apply hasMetadataRoot_true in Hhead. congruence.
  - intros (p & toAssign & value & lastNode & Hp & Hhead & Hlast & Hkey
            & Hj & Hv & Hlist).
    rewrite (IsValidAssign_accepts a p toAssign value); try done.
    + apply validateObjectAssignedToList_None_iff. eauto.
    + apply not_true_is_false. intros Hm. apply hasMetadataRoot_true in Hm.
      apply Hhead. by rewrite head_lookup.
    + apply checkKeyNotChanged_None_iff. split; [|done].
      intros Hnil. by rewrite Hnil in Hlast.
Qed.


(** The path is judged before the payload: when the location does not
    parse, starts at "metadata" or fails the key check, the declaration is
    rejected with an error that depends on nothing but the location. *)
Theorem IsValidAssign_path_errors_first a b :
  location a = location b →
  (∀ p, parser_Parse (location a) = Ok p →
        hasMetadataRoot p = true ∨ is_Some (checkKeyNotChanged p)) →
  is_Some (IsValidAssign a) ∧ IsValidAssign a = IsValidAssign b.
Proof.
  intros Hloc Hbad. unfold IsValidAssign. rewrite <- Hloc.
  destruct (parser_Parse (location a)) as [p|e]; [|eauto].
  destruct (Hbad p eq_refl) as [-> | [e ->]]; [eauto|].
  destruct (hasMetadataRoot p); eauto.
Qed.

(** With a path that passes the path checks, each way the payload can be
    wrong has its own error: a document that does not decode and a
    document that is not an object are format errors, while [null] and an
    object without [value] are reported as a missing value field. *)
Theorem IsValidAssign_payload_errors a p :
  parser_Parse (location a) = Ok p →
  hasMetadataRoot p = false →
  checkKeyNotChanged p = None →
  (∀ e, json_decode (elems (raw a)) = Err e →
        IsValidAssign a =
          Some (errors_Wrap e "invalid format for parameters.assign"))
  ∧ (∀ v, json_decode (elems (raw a)) = Ok v →
          v ≠ VNil → (∀ m, v ≠ VObject m) →
          IsValidAssign a =
            Some (errors_Wrap json_UnmarshalTypeError
                    "invalid format for parameters.assign"))
  ∧ (json_decode (elems (raw a)) = Ok VNil →
     IsValidAssign a =
       Some (errors_New "spec.parameters.assign must have a value field"))
  ∧ (∀ m, json_decode (elems (raw a)) = Ok (VObject m) →
          m !! "value" = None →
          IsValidAssign a =
            Some (errors_New "spec.parameters.assign must have a value field")).
Proof.
  intros Hp Hm Hk. rewrite (IsValidAssign_parsed a p Hp), Hm, Hk.
  unfold json_Unmarshal_map. repeat split.
  - intros e ->. reflexivity.
  - intros v -> Hnil Hobj. destruct v; try reflexivity; [done|].
    by destruct (Hobj m).
  - intros ->. reflexivity.
  - intros m -> ->. reflexivity.
Qed.

(** Validation and construction agree on the path: a declaration that
    [IsValidAssign] accepts, and whose identity can be computed, is turned
    into a record by [MutatorForAssign], and the path of that record is
    not empty, does not start at "metadata" and passes the key check. *)
Theorem IsValidAssign_then_MutatorForAssign a i :
  IsValidAssign a = None →
  MakeID a = Ok i →
  ∃ m, MutatorForAssign a = Ok m
       ∧ AssignMutator_ID m = i
       ∧ assign m = a
       ∧ elems (Nodes (AssignMutator_Path m)) ≠ []
       ∧ hasMetadataRoot (AssignMutator_Path m) = false
       ∧ checkKeyNotChanged (AssignMutator_Path m) = None.
Proof.
  intros Hacc Hid.
  destruct (parser_Parse (location a)) as [p|e] eqn:Hp;
    [|unfold IsValidAssign in Hacc; by rewrite Hp in Hacc].
  destruct (IsValidAssign_accepts_inv a p Hp Hacc) as (Hm & Hk & _).
  eexists. unfold MutatorForAssign. rewrite Hid, Hp. simpl.
  split_and!; try done.
  by apply checkKeyNotChanged_None_iff in Hk as [? _].
Qed.

End ValidationMore.

(** * Further properties of the record *)

Section RecordMore.
Context {Match RuntimeObject Namespace : Type} `{!EqDecision Match}
        {ext : Externals Match RuntimeObject Namespace}.
Implicit Types (a b : Assign Match) (m : AssignMutator Match).

(** [Matches] answers true only when the predicate answered true without
    an error, and it logs exactly when the predicate returned an error. *)
Theorem AssignMutator_Matches_true_iff m (obj : RuntimeObject) (ns : Namespace) :
  ((AssignMutator_Matches m obj ns).1 = true ↔
     Matches (Spec_Match (Assign_Spec (assign m))) obj ns = (true, None))
  ∧ ((AssignMutator_Matches m obj ns).2 = [] ↔
     (Matches (Spec_Match (Assign_Spec (assign m))) obj ns).2 = None).
Proof.
  unfold AssignMutator_Matches.
  destruct (Matches (Spec_Match (Assign_Spec (assign m))) obj ns)
    as [matches [e|]]; simpl.
  - split; split; discriminate.
  - split; split; congruence.
Qed.

(** "No diff" is an equivalence on Assign mutators: a record has no diff
    with itself, [HasDiff] gives the same answer in both directions, and
    no diff from the first to the second and from the second to the third
    means no diff from the first to the third. *)
Theorem HasDiff_equivalence :
  (∀ m, HasDiff m (IsAssignMutator m) = false)
  ∧ (∀ m m', HasDiff m (IsAssignMutator m') = HasDiff m' (IsAssignMutator m))
  ∧ (∀ m1 m2 m3,
       HasDiff m1 (IsAssignMutator m2) = false →
       HasDiff m2 (IsAssignMutator m3) = false →
       HasDiff m1 (IsAssignMutator m3) = false).
Proof.
  split_and!.
  - intros m. by apply HasDiff_false_iff.
  - intros m m'.
    destruct (HasDiff m (IsAssignMutator m')) eqn:E1,
      (HasDiff m' (IsAssignMutator m)) eqn:E2; try reflexivity.
    + apply HasDiff_false_iff in E2 as (?&?&?&?).
      assert (HasDiff m (IsAssignMutator m') = false)
        by (by apply HasDiff_false_iff).
      congruence.
    + apply HasDiff_false_iff in E1 as (?&?&?&?).
      assert (HasDiff m' (IsAssignMutator m) = false)
        by (by apply HasDiff_false_iff).
      congruence.
  - intros m1 m2 m3 H12 H23.
    apply HasDiff_false_iff in H12 as (?&?&?&?).
    apply HasDiff_false_iff in H23 as (?&?&?&?).
    apply HasDiff_false_iff. split_and!; congruence.
Qed.

Lemma MutatorForAssign_Ok_inv a m :
  MutatorForAssign a = Ok m →
  MakeID a = Ok (id m)
  ∧ parser_Parse (Spec_Location (Assign_Spec a)) = Ok (path m)
  ∧ assign m = a
  ∧ bindings m = applyToToBindings (Spec_ApplyTo (Assign_Spec a)).
Proof.
  unfold MutatorForAssign, Assign_DeepCopy.
  destruct (MakeID a) as [i|]; [|discriminate].
  destruct (parser_Parse (Spec_Location (Assign_Spec a))) as [p|];
    [|discriminate].
  by intros [= <-].
Qed.

(** What the accessors return on a constructed record: the identity is
    the one [MakeID] computed, the path the one the parser returned, and
    there is one schema binding for each applyTo entry, in order, with the
    same groups, kinds and versions held in slices that are never nil. *)
Theorem MutatorForAssign_accessors a m :
  MutatorForAssign a = Ok m →
  MakeID a = Ok (AssignMutator_ID m)
  ∧ parser_Parse (Spec_Location (Assign_Spec a)) = Ok (AssignMutator_Path m)
  ∧ len (AssignMutator_SchemaBindings m) = len (Spec_ApplyTo (Assign_Spec a))
  ∧ AssignMutator_SchemaBindings m =
      Some ((λ applyTo,
               {| Groups := Some (elems (ApplyTo_Groups applyTo));
                  Kinds := Some (elems (ApplyTo_Kinds applyTo));
                  Versions := Some (elems (ApplyTo_Versions applyTo)) |})
            <$> elems (Spec_ApplyTo (Assign_Spec a))).
Proof.
  intros Hm. destruct (MutatorForAssign_Ok_inv a m Hm) as (Hi & Hp & _ & Hb).
  unfold AssignMutator_ID, AssignMutator_Path, AssignMutator_SchemaBindings.
  rewrite Hb, applyToToBindings_elems. split_and!; try done.
  simpl. rewrite length_fmap. by destruct (Spec_ApplyTo (Assign_Spec a)).
Qed.

(** Between two constructed records, [HasDiff] is decided by the identity
    and the spec of the two declarations: the path and the bindings are
    derived from the spec, so they differ only when the spec does. *)
Theorem MutatorForAssign_HasDiff a b m m' :
  MutatorForAssign a = Ok m →
  MutatorForAssign b = Ok m' →
  (HasDiff m (IsAssignMutator m') = false ↔
   MakeID a = MakeID b ∧ Assign_Spec a = Assign_Spec b).
Proof.
  intros Ha Hb.
  destruct (MutatorForAssign_Ok_inv a m Ha) as (Hi & Hp & Has & Hbs).
  destruct (MutatorForAssign_Ok_inv b m' Hb) as (Hi' & Hp' & Has' & Hbs').
  rewrite HasDiff_false_iff. split.
  - intros (Hid & _ & _ & Hspec). rewrite Has, Has' in Hspec.
    split; [|done]. by rewrite Hi, Hi', Hid.
  - intros [Hid Hspec]. split_and!.
    + rewrite Hi, Hi' in Hid. by injection Hid.
    + rewrite Hspec, Hp' in Hp. by injection Hp.
    + by rewrite Hbs, Hbs', Hspec.
    + by rewrite Has, Has'.
Qed.

End RecordMore.

(** [applyToToBindings] never returns nil, keeps the number and the order
    of the entries, and copies each of the three lists of an entry into a
    slice that is not nil even when the list is. *)
Theorem applyToToBindings_index (applyTos : slice ApplyTo) :
  applyToToBindings applyTos ≠ None
  ∧ len (applyToToBindings applyTos) = len applyTos
  ∧ ∀ i applyTo,
      index applyTos i = Some applyTo →
      index (applyToToBindings applyTos) i =
        Some {| Groups := Some (elems (ApplyTo_Groups applyTo));
                Kinds := Some (elems (ApplyTo_Kinds applyTo));
                Versions := Some (elems (ApplyTo_Versions applyTo)) |}.
Proof.
  rewrite applyToToBindings_elems. split_and!.
  - discriminate.
  - simpl. rewrite length_fmap. by destruct applyTos.
  - intros i applyTo Hi. unfold index in *. simpl.
    by rewrite list_lookup_fmap, Hi.
Qed.

(** * Further properties of [DeepCopy] *)

Section StoreMore.
Context {Match : Type} `{!EqDecision Match}.
Implicit Types (h ext : list (cell Match)) (m : AssignMutatorRef).

(** The result of [DeepCopy], nil slices included: [len] of a nil slice
    is 0, [make] then returns an empty array, and [copy] from nil copies
    nothing. *)
Lemma AssignMutator_DeepCopy_result_gen h m a nodes ns bs :
  h !! ref_assign m = Some (CAssign a) →
  h !! ref_path m = Some (CPath nodes) →
  match nodes with
  | None => ns = []
  | Some arr => h !! arr = Some (CNodes ns)
  end →
  match ref_bindings m with
  | None => bs = []
  | Some barr => h !! barr = Some (CBindings bs)
  end →
  AssignMutator_DeepCopy m h =
    Some ({| ref_id := ref_id m;
             ref_assign := length h;
             ref_path := length h + 2;
             ref_bindings := Some (length h + 3) |},
          h ++ [CAssign a; CNodes ns; CPath (Some (length h + 1));
                CBindings bs]).
Proof.
  intros Ha Hp Hn Hb.
  unfold AssignMutator_DeepCopy, Assign_DeepCopy_at, path_Nodes_at, len_at,
    copy_Nodes, copy_Bindings, bind, ret, alloc, Assign_DeepCopy.
  unfold load at 1. rewrite Ha.
  rewrite (load_app _ _ _ _ Hp).
  destruct nodes as [arr|], (ref_bindings m) as [barr|]; subst.
  - rewrite (load_app _ _ _ _ Hn).
    rewrite <- !app_assoc. simpl.
    rewrite (load_app _ _ _ _ Hb).
    rewrite <- !app_assoc. simpl.
    rewrite !length_app. simpl length.
    erewrite (load_fresh h _ 1) by reflexivity. rewrite (load_app _ _ _ _ Hn).
    rewrite store_at_fresh by (simpl; lia). simpl.
    erewrite (load_fresh h _ 3) by reflexivity. rewrite (load_app _ _ _ _ Hb).
    rewrite store_at_fresh by (simpl; lia). simpl.
    rewrite !copy_elems_same_length by (by rewrite length_replicate).
    reflexivity.
  - rewrite (load_app _ _ _ _ Hn).
    rewrite <- !app_assoc. simpl.
    rewrite !length_app. simpl length.
    erewrite (load_fresh h _ 1) by reflexivity. rewrite (load_app _ _ _ _ Hn).
    rewrite store_at_fresh by (simpl; lia). simpl.
    rewrite !copy_elems_same_length by (by rewrite length_replicate).
    reflexivity.
  - rewrite <- !app_assoc. simpl.
    rewrite (load_app _ _ _ _ Hb).
    rewrite <- !app_assoc. simpl.
    rewrite !length_app. simpl length.
    erewrite (load_fresh h _ 3) by reflexivity. rewrite (load_app _ _ _ _ Hb).
    rewrite store_at_fresh by (simpl; lia). simpl.
    rewrite !copy_elems_same_length by (by rewrite length_replicate).
    reflexivity.
  - rewrite <- !app_assoc. simpl.
    rewrite !length_app. simpl length. reflexivity.
Qed.

(** How a record that reads as a value sits in the store. *)
Lemma read_mutator_layout_gen h m v :
  read_mutator h m = Some v →
  ∃ nodes ns bs,
    h !! ref_assign m = Some (CAssign (assign v))
    ∧ h !! ref_path m = Some (CPath nodes)
    ∧ match nodes with
      | None => ns = []
      | Some arr => h !! arr = Some (CNodes ns)
      end
    ∧ match ref_bindings m with
      | None => bs = []
      | Some barr => h !! barr = Some (CBindings bs)
      end
    ∧ mapM (read_node h) ns = Some (elems (Nodes (path v)))
    ∧ mapM (read_binding h) bs = Some (elems (bindings v))
    ∧ (Nodes (path v) = None ↔ nodes = None)
    ∧ (bindings v = None ↔ ref_bindings m = None)
    ∧ id v = ref_id m.
Proof.
  unfold read_mutator. intros H.
  destruct (read_assign h (ref_assign m)) as [a|] eqn:E1; [|done].
  destruct (read_path h (ref_path m)) as [p|] eqn:E2; [|done].
  destruct (read_bindings h (ref_bindings m)) as [b|] eqn:E3; [|done].
  injection H as <-. simpl in *.
  unfold read_assign in E1.
  destruct (h !! ref_assign m) as [[]|]; try done. injection E1 as ->.
  unfold read_path in E2.
  destruct (h !! ref_path m) as [[| nodes | | | |]|]; try done.
  assert (∃ ns, match nodes with
                | None => ns = []
                | Some arr => h !! arr = Some (CNodes ns)
                end
                ∧ mapM (read_node h) ns = Some (elems (Nodes p))
                ∧ (Nodes p = None ↔ nodes = None)) as (ns & Hns & Hrn & Hnil).
  { destruct nodes as [arr|].
    - destruct (h !! arr) as [[| |ns| | |]|] eqn:Ea; try done.
      destruct (mapM (read_node h) ns) as [l|] eqn:Em; [|done].
      injection E2 as <-. exists ns. simpl. by split_and!.
    - injection E2 as <-. exists []. by split_and!. }
  unfold read_bindings in E3.
  assert (∃ bs, match ref_bindings m with
                | None => bs = []
                | Some barr => h !! barr = Some (CBindings bs)
                end
                ∧ mapM (read_binding h) bs = Some (elems b)
                ∧ (b = None ↔ ref_bindings m = None)) as (bs & Hbs & Hrb & Hbnil).
  { destruct (ref_bindings m) as [barr|].
    - destruct (h !! barr) as [[| | | |bs|]|] eqn:Eb; try done.
      destruct (mapM (read_binding h) bs) as [k|] eqn:Ek; [|done].
      injection E3 as <-. exists bs. simpl. by split_and!.
    - injection E3 as <-. exists []. by split_and!. }
  exists nodes, ns, bs. by split_and!.
Qed.

Lemma read_mutator_copy h m v ns bs :
  h !! ref_assign m = Some (CAssign (assign v)) →
  mapM (read_node h) ns = Some (elems (Nodes (path v))) →
  mapM (read_binding h) bs = Some (elems (bindings v)) →
  id v = ref_id m →
  read_mutator
    (h ++ [CAssign (assign v); CNodes ns; CPath (Some (length h + 1));
           CBindings bs])
    {| ref_id := ref_id m; ref_assign := length h;
       ref_path := length h + 2; ref_bindings := Some (length h + 3) |}
  = Some {| id := id v; assign := assign v;
            path := {| Nodes := Some (elems (Nodes (path v))) |};
            bindings := Some (elems (bindings v)) |}.
Proof.
  intros Ha Hrn Hrb Hid.
  unfold read_mutator, read_assign, read_path, read_bindings. simpl.
  rewrite <- (Nat.add_0_r (length h)) at 1.
  repeat (rewrite lookup_fresh; simpl).
  rewrite (mapM_impl _ (read_node (h ++ _)) _ _ (read_node_app h _) Hrn).
  rewrite (mapM_impl _ (read_binding (h ++ _)) _ _ (read_binding_app h _) Hrb).
  simpl. by rewrite Hid.
Qed.


(** A nil slice does not survive [DeepCopy]: the copy of a record with
    nil [Nodes] or nil [bindings] holds an empty slice instead, which
    [cmp.Equal] tells apart from nil.  So [HasDiff] between a record and
    its copy is false exactly when neither slice of the record is nil. *)
Theorem AssignMutator_DeepCopy_HasDiff h m v :
  read_mutator h m = Some v →
  ∃ m' h' v',
    AssignMutator_DeepCopy m h = Some (m', h')
    ∧ read_mutator h' m' = Some v'
    ∧ (HasDiff v (IsAssignMutator v') = false ↔
       Nodes (path v) ≠ None ∧ bindings v ≠ None).
Proof.
  intros Hv.
  destruct (read_mutator_layout_gen h m v Hv)
    as (nodes & ns & bs & Ha & Hp & Hn & Hb & Hrn & Hrb & _ & _ & Hid).
  eexists _, _, _. split;
    [exact (AssignMutator_DeepCopy_result_gen h m _ nodes ns bs Ha Hp Hn Hb)|].
  split; [by apply read_mutator_copy|].
  rewrite HasDiff_false_iff. simpl.
  destruct v as [vi va [[l|]] [k|]]; simpl; split;
    try (intros (_ & ? & ? & _); done);
    try (intros [? ?]; done).
Qed.

End StoreMore.

(** * The further properties on concrete inputs *)

Lemma IsValidAssign_path_errors_first_witness :
  IsValidAssign (ext := stub_externals) assign_metadata
  = IsValidAssign (ext := stub_externals) assign_metadata_no_value.
Proof.
  apply (IsValidAssign_path_errors_first (ext := stub_externals)
           assign_metadata assign_metadata_no_value eq_refl).
  intros p Hp. vm_compute in Hp. injection Hp as <-. left. reflexivity.
Defined.

Lemma IsValidAssign_payload_errors_witness :
  IsValidAssign (ext := stub_externals) assign_no_value
  = Some (errors_New "spec.parameters.assign must have a value field").
Proof.
  apply (proj2 (proj2 (proj2
    (IsValidAssign_payload_errors (ext := stub_externals) assign_no_value
       {| Nodes := Some [Object "spec"; Object "replicas"] |}
       ltac:(vm_compute; reflexivity) ltac:(vm_compute; reflexivity)
       ltac:(vm_compute; reflexivity)))) ∅);
    vm_compute; reflexivity.
Defined.

Lemma IsValidAssign_then_MutatorForAssign_witness :
  ∃ m, MutatorForAssign (ext := stub_externals) assign_image = Ok m
       ∧ hasMetadataRoot (AssignMutator_Path m) = false
       ∧ checkKeyNotChanged (AssignMutator_Path m) = None.
Proof.
  destruct (IsValidAssign_then_MutatorForAssign (ext := stub_externals)
              assign_image
              {| ID_Group := "mutations.gatekeeper.sh"; ID_Kind := "Assign";
                 ID_Name := "demo"; ID_Namespace := EmptyString |})
    as (m & Hm & _ & _ & _ & Hroot & Hkey);
    [vm_compute; reflexivity | vm_compute; reflexivity |].
  exists m. auto.
Defined.

Lemma MutatorForAssign_accessors_witness :
  ∃ m, MutatorForAssign (ext := stub_externals) assign_image = Ok m
       ∧ AssignMutator_SchemaBindings m =
           Some [ {| Groups := Some ["apps"]; Kinds := Some ["Deployment"];
                     Versions := Some ["v1"] |} ].
Proof.
  destruct (MutatorForAssign (ext := stub_externals) assign_image)
    as [m|e] eqn:Hm; [|vm_compute in Hm; discriminate Hm].
  exists m. split; [reflexivity|].
  destruct (MutatorForAssign_accessors (ext := stub_externals)
              assign_image m Hm) as (_ & _ & _ & Hb).
  exact Hb.
Defined.

Lemma MutatorForAssign_HasDiff_witness :
  ∃ m m', MutatorForAssign (ext := stub_externals) assign_image = Ok m
          ∧ MutatorForAssign (ext := stub_externals) assign_nginx = Ok m'
          ∧ HasDiff m (IsAssignMutator m) = false
          ∧ HasDiff m (IsAssignMutator m') ≠ false.
Proof.
  destruct (MutatorForAssign (ext := stub_externals) assign_image)
    as [m|e] eqn:Hm; [|vm_compute in Hm; discriminate Hm].
  destruct (MutatorForAssign (ext := stub_externals) assign_nginx)
    as [m'|e] eqn:Hm'; [|vm_compute in Hm'; discriminate Hm'].
  exists m, m'. split; [reflexivity|]. split; [reflexivity|]. split.
  - apply (MutatorForAssign_HasDiff (ext := stub_externals)
             assign_image assign_image m m Hm Hm). split; reflexivity.
  - intros Hno.
    apply (MutatorForAssign_HasDiff (ext := stub_externals)
             assign_image assign_nginx m m' Hm Hm') in Hno as [_ Hspec].
    vm_compute in Hspec. discriminate Hspec.
Defined.


Lemma AssignMutator_DeepCopy_HasDiff_witness :
  ∃ m' h' v v',
    read_mutator store0 mutator0_nil_bindings = Some v
    ∧ AssignMutator_DeepCopy mutator0_nil_bindings store0 = Some (m', h')
    ∧ read_mutator h' m' = Some v'
    ∧ bindings v = None ∧ HasDiff v (IsAssignMutator v') ≠ false.
Proof.
  destruct (AssignMutator_DeepCopy_HasDiff store0 mutator0_nil_bindings
              (default mutator_failing_match
                 (read_mutator store0 mutator0_nil_bindings)))
    as (m' & h' & v' & Hc & Hr & Hiff); [vm_compute; reflexivity|].
  eexists m', h', _, v'. split; [vm_compute; reflexivity|].
  split; [exact Hc|]. split; [exact Hr|]. split; [reflexivity|].
  intros Hno. apply Hiff in Hno as [_ Hb]. by apply Hb.
Defined.
